(** * pkg: the PHP-compatibility version logic and the Ingest stage

    A shallow embedding of
    - [phpcompat]: [PreviousVersion], [PhpMajorVersions], [MergeVersions],
      [ExcludeVersions], [BreaksVersions], [NonBreakingVersions];
    - [source/zip]: [unzip], [combinedChecksum], [PrepareFiles];
    - [process]: [validateMessage], [Ingest.Do] and one turn of [Ingest.Run].

    Go strings are byte sequences and are modelled by [string] (a list of
    8-bit [ascii]); Go [int] is the 64-bit signed integer, modelled by [Z]
    with the wrap-around written out. *)

From Stdlib Require Import ZArith Ascii String List Permutation Sorted Bool Lia.
From stdpp Require Import gmap strings sorting.
Import ListNotations.

Open Scope string_scope.

(** ** Outcomes of Go code that can panic *)

Inductive outcome (A : Type) : Type :=
| Ret (a : A)
| Panic (why : string).
Arguments Ret {A} a.
Arguments Panic {A} why.

#[global] Instance outcome_ret : MRet outcome := fun A a => Ret a.
#[global] Instance outcome_bind : MBind outcome := fun A B k m =>
  match m with
  | Ret a => k a
  | Panic w => Panic w
  end.

Ltac unfold_bind := unfold mbind, outcome_bind, mret, outcome_ret.

Definition index_out_of_range : string := "runtime error: index out of range".
Definition nil_dereference : string :=
  "runtime error: invalid memory address or nil pointer dereference".

(** [s[i]] on a slice: a panic when [i] is out of range. *)
Definition at_index {A} (l : list A) (i : nat) : outcome A :=
  match nth_error l i with
  | Some a => Ret a
  | None => Panic index_out_of_range
  end.

(** [s[i] = v] on a slice: a panic when [i] is out of range. *)
Definition set_index {A} (l : list A) (i : nat) (v : A) : outcome (list A) :=
  if (i <? List.length l)%nat then Ret (<[i:=v]> l) else Panic index_out_of_range.

(** A Go [error] value, by its text ([err.Error()]); [errors.New(text)]. *)
Record error : Type := errors_New { Error : string }.

(** A slice that may be nil: [None] is the nil slice. [append] to the nil
    slice allocates. *)
Definition append_slice {A} (s : option (list A)) (x : A) : option (list A) :=
  Some (default [] s ++ [x])%list.

(** [append] of all of [l], one by one: nothing is allocated for none. *)
Definition append_all {A} (s : option (list A)) (l : list A) : option (list A) :=
  fold_left append_slice l s.

(** ** The Go standard library functions the code calls *)

Module GoStrings.

(** [strings.Split(s, sep)] for a one-byte separator: the pieces between
    the occurrences of [sep], always at least one piece. *)
Fixpoint Split (s : string) (sep : ascii) : list string :=
  match s with
  | EmptyString => [""]
  | String c r =>
      if Ascii.eqb c sep then "" :: Split r sep
      else match Split r sep with
           | h :: t => String c h :: t
           | [] => [String c ""]
           end
  end.

(** [strings.Join(parts, sep)]. *)
Definition Join (parts : list string) (sep : string) : string :=
  String.concat sep parts.

(** [strings.TrimPrefix(s, prefix)]. *)
Fixpoint drop (n : nat) (s : string) : string :=
  match n, s with
  | O, _ => s
  | S n', String _ r => drop n' r
  | S _, EmptyString => ""
  end.

Definition TrimPrefix (s pre : string) : string :=
  if String.prefix pre s then drop (String.length pre) s else s.

(** [strings.ToLower] maps every rune of a string by the Unicode case
    tables (U+0130 and U+212A become the ASCII letters [i] and [k]). The
    tables are not modelled: the code that calls [ToLower] is parametric in
    it. *)
Class Unicode : Type := {
  ToLower : string -> string
}.

(** What [strings.ToLower] does on a string of bytes below 0x80, its fast
    path: [A]..[Z] become [a]..[z]. On other strings it is not
    [strings.ToLower]. *)
Definition lower_byte (c : ascii) : ascii :=
  let n := N_of_ascii c in
  if ((65 <=? n) && (n <=? 90))%N then ascii_of_N (n + 32) else c.

Fixpoint lower_ascii (s : string) : string :=
  match s with
  | EmptyString => ""
  | String c r => String (lower_byte c) (lower_ascii r)
  end.

(** Go compares strings byte by byte: [String.compare]. [sort.Strings]
    sorts a slice in increasing order; strings that compare equal are
    equal, so the result is the one sorted arrangement of the input
    (see [sortStrings_unique]), whatever algorithm produces it. *)
Fixpoint insert_sorted (x : string) (l : list string) : list string :=
  match l with
  | [] => [x]
  | y :: r => if String.leb x y then x :: l else y :: insert_sorted x r
  end.

Fixpoint sortStrings (l : list string) : list string :=
  match l with
  | [] => []
  | x :: r => insert_sorted x (sortStrings r)
  end.

(** The order of Go's [<=] and [<] on strings. *)
Definition str_le (a b : string) : Prop := String.leb a b = true.
Definition str_lt (a b : string) : Prop := String.ltb a b = true.

(** *** strconv *)

Definition int_min : Z := - 2 ^ 63.
Definition int_max : Z := 2 ^ 63 - 1.

(** 64-bit two's complement wrap-around of an arithmetic result. *)
Definition wrap (z : Z) : Z := (z + 2 ^ 63) mod 2 ^ 64 - 2 ^ 63.

Definition is_digit (c : ascii) : bool :=
  let n := N_of_ascii c in ((48 <=? n) && (n <=? 57))%N.

Definition digit_val (c : ascii) : Z := Z.of_N (N_of_ascii c) - 48.

(** The value of a string of decimal digits, [None] when some byte is not
    a digit ([acc] is the value read so far). *)
Fixpoint digits_value (s : string) (acc : Z) : option Z :=
  match s with
  | EmptyString => Some acc
  | String c r =>
      if is_digit c then digits_value r (acc * 10 + digit_val c) else None
  end.

(** The loop of [strconv.ParseUint(s, 10, 64)], byte by byte, [n] being
    the value read so far: a byte that is not a digit is a syntax error;
    a digit that would take the value past [2^64 - 1] is a range error,
    returned at once, before the bytes after it are looked at. *)
Inductive parsed : Type :=
| Value (n : Z)
| SyntaxError
| RangeError.

Definition uint_cutoff : Z := (2 ^ 64 - 1) / 10 + 1.

Fixpoint parse_uint (s : string) (n : Z) : parsed :=
  match s with
  | EmptyString => Value n
  | String c r =>
      if is_digit c then
        if (n >=? uint_cutoff)%Z then RangeError
        else
          let n1 := (n * 10 + digit_val c)%Z in
          if (n1 >? 2 ^ 64 - 1)%Z then RangeError else parse_uint r n1
      else SyntaxError
  end.

(** [n, _ := strconv.Atoi(s)]: the value with the error dropped, as
    [strconv.ParseInt(s, 10, 0)] gives it: an optional sign, then
    [ParseUint] on the rest. A syntax error gives 0 and a range error the
    bound on the side of the sign, also when a byte that is not a digit
    follows the digits that overflow. The fast path of [Atoi] for fewer
    than 19 bytes gives the same values: 18 digits do not overflow. *)
Definition Atoi (s : string) : Z :=
  let '(neg, body) :=
    match s with
    | String "-" r => (true, r)
    | String "+" r => (false, r)
    | _ => (false, s)
    end in
  match body with
  | EmptyString => 0
  | _ =>
      match parse_uint body 0 with
      | SyntaxError => 0
      | RangeError => if neg then int_min else int_max
      | Value v =>
          if neg then (if v >? 2 ^ 63 then int_min else - v)
          else (if v >=? 2 ^ 63 then int_max else v)
      end
  end%Z.

Definition digit_char (d : Z) : ascii := ascii_of_N (Z.to_N (d + 48)).

(** The decimal digits of [n >= 0], most significant first, put in front
    of [acc]; at least one digit. [fuel] bounds the number of digits. *)
Fixpoint utoa (fuel : nat) (n : Z) (acc : string) : string :=
  match fuel with
  | O => acc
  | S f =>
      let acc' := String (digit_char (n mod 10)) acc in
      if (n / 10 =? 0)%Z then acc' else utoa f (n / 10) acc'
  end.

Definition digits_fuel (n : Z) : nat := S (Z.to_nat (Z.log2 n)).

(** Strings of digits only, and a reader of what [Itoa] writes: an
    optional minus sign and digits, without bounds. *)
Fixpoint all_digits (s : string) : bool :=
  match s with
  | EmptyString => true
  | String c r => is_digit c && all_digits r
  end.

Definition read_int (s : string) : option Z :=
  match s with
  | String "-" r => Z.opp <$> digits_value r 0
  | _ => digits_value s 0
  end.

(** Whether the byte [sep] occurs in [s]. *)
Fixpoint has_byte (s : string) (sep : ascii) : bool :=
  match s with
  | EmptyString => false
  | String c r => Ascii.eqb c sep || has_byte r sep
  end.

(** [strconv.Itoa(i)]. *)
Definition Itoa (i : Z) : string :=
  if (i <? 0)%Z then String "-" (utoa (digits_fuel (- i)) (- i) "")
  else utoa (digits_fuel i) i "".

End GoStrings.

(** ** crypto/sha256 and the [%x] verb *)

Module Sha256.
Local Open Scope Z_scope.

Definition w32 (x : Z) : Z := x mod 2 ^ 32.
Definition add32 (x y : Z) : Z := w32 (x + y).
Definition rotr (n x : Z) : Z := Z.lor (Z.shiftr x n) (w32 (Z.shiftl x (32 - n))).
Definition shr (n x : Z) : Z := Z.shiftr x n.

Definition Ch (x y z : Z) : Z := Z.lxor (Z.land x y) (Z.land (w32 (Z.lnot x)) z).
Definition Maj (x y z : Z) : Z :=
  Z.lxor (Z.lxor (Z.land x y) (Z.land x z)) (Z.land y z).
Definition Sigma0 (x : Z) : Z := Z.lxor (Z.lxor (rotr 2 x) (rotr 13 x)) (rotr 22 x).
Definition Sigma1 (x : Z) : Z := Z.lxor (Z.lxor (rotr 6 x) (rotr 11 x)) (rotr 25 x).
Definition sigma0 (x : Z) : Z := Z.lxor (Z.lxor (rotr 7 x) (rotr 18 x)) (shr 3 x).
Definition sigma1 (x : Z) : Z := Z.lxor (Z.lxor (rotr 17 x) (rotr 19 x)) (shr 10 x).

(** The constants are what FIPS 180-4 says they are: the first 32 bits of
    the fractional parts of the cube roots of the first 64 primes, and, for
    the initial hash value, of the square roots of the first 8 primes. *)
Definition is_prime (n : Z) : bool :=
  forallb (fun d => negb (n mod d =? 0))
          (List.filter (fun d => d * d <=? n) (map Z.of_nat (seq 2 (Z.to_nat n - 2)))).

Definition primes : list Z :=
  firstn 64 (List.filter is_prime (map Z.of_nat (seq 2 400))).

(** The integer cube root, bit by bit from bit 40 down. *)
Definition cube_root (n : Z) : Z :=
  fold_left
    (fun r b => let r' := r + 2 ^ Z.of_nat b in if r' ^ 3 <=? n then r' else r)
    (rev (seq 0 41)) 0.

Definition K : list Z :=
  Eval vm_compute in map (fun p => cube_root (p * 2 ^ 96) mod 2 ^ 32) primes.

Definition init_words : list Z :=
  Eval vm_compute in map (fun p => Z.sqrt (p * 2 ^ 64) mod 2 ^ 32) (firstn 8 primes).

(** The eight working registers, also the chaining value. *)
Record state : Type := State { ra : Z; rb : Z; rc : Z; rd : Z; re : Z; rf : Z; rg : Z; rh : Z }.

Definition init : state :=
  let word i := nth i init_words 0 in
  State (word 0%nat) (word 1%nat) (word 2%nat) (word 3%nat)
        (word 4%nat) (word 5%nat) (word 6%nat) (word 7%nat).

Definition byte_val (c : ascii) : Z := Z.of_N (N_of_ascii c).
Definition byte_of (z : Z) : ascii := ascii_of_N (Z.to_N (z mod 256)).

(** Big-endian bytes of a 64-bit and of a 32-bit word. *)
Definition be_bytes (width : nat) (x : Z) : list Z :=
  map (fun i => Z.shiftr x (8 * Z.of_nat i) mod 256) (rev (seq 0 width)).

(** Padding: the byte 0x80, zeros up to 56 modulo 64, the bit length. *)
Definition pad (msg : list Z) : list Z :=
  let len := Z.of_nat (List.length msg) in
  let zeros := Z.to_nat ((55 - len) mod 64) in
  msg ++ [0x80] ++ repeat 0 zeros ++ be_bytes 8 (8 * len).

Fixpoint words (bytes : list Z) : list Z :=
  match bytes with
  | b0 :: b1 :: b2 :: b3 :: rest =>
      (Z.shiftl b0 24 + Z.shiftl b1 16 + Z.shiftl b2 8 + b3) :: words rest
  | _ => []
  end.

(** The message schedule: [w] holds the words so far, latest first. *)
Fixpoint schedule (n : nat) (w : list Z) : list Z :=
  match n with
  | O => w
  | S n' =>
      let at_back i := nth i w 0 in
      schedule n'
        (add32 (add32 (sigma1 (at_back 1%nat)) (at_back 6%nat))
               (add32 (sigma0 (at_back 14%nat)) (at_back 15%nat)) :: w)
  end.

Definition round (s : state) (kw : Z * Z) : state :=
  let '(k, w) := kw in
  let t1 := add32 (add32 (add32 (rh s) (Sigma1 (re s))) (Ch (re s) (rf s) (rg s)))
                  (add32 k w) in
  let t2 := add32 (Sigma0 (ra s)) (Maj (ra s) (rb s) (rc s)) in
  State (add32 t1 t2) (ra s) (rb s) (rc s) (add32 (rd s) t1) (re s) (rf s) (rg s).

Definition compress (h : state) (block : list Z) : state :=
  let w := rev (schedule 48 (rev block)) in
  let s := fold_left round (combine K w) h in
  State (add32 (ra h) (ra s)) (add32 (rb h) (rb s)) (add32 (rc h) (rc s))
        (add32 (rd h) (rd s)) (add32 (re h) (re s)) (add32 (rf h) (rf s))
        (add32 (rg h) (rg s)) (add32 (rh h) (rh s)).

Fixpoint blocks (fuel : nat) (ws : list Z) (h : state) : state :=
  match fuel, ws with
  | S f, _ :: _ => blocks f (skipn 16 ws) (compress h (firstn 16 ws))
  | _, _ => h
  end.

Definition digest_words (h : state) : list Z :=
  [ra h; rb h; rc h; rd h; re h; rf h; rg h; rh h].

Definition bytes_of_string (s : string) : list Z := map byte_val (list_ascii_of_string s).
Definition string_of_bytes (l : list Z) : string := string_of_list_ascii (map byte_of l).

(** [sha256.Sum256(data)]: the 32 bytes of the digest. *)
Definition Sum256 (data : string) : string :=
  let ws := words (pad (bytes_of_string data)) in
  string_of_bytes (flat_map (be_bytes 4) (digest_words (blocks (List.length ws) ws init))).

Definition hex_digit (n : Z) : ascii :=
  if n <? 10 then ascii_of_N (Z.to_N (48 + n)) else ascii_of_N (Z.to_N (87 + n)).

(** [fmt.Sprintf("%x", bytes)]: two lower-case hexadecimal digits a byte. *)
Fixpoint hex (bytes : string) : string :=
  match bytes with
  | EmptyString => ""
  | String c r =>
      String (hex_digit (byte_val c / 16)) (String (hex_digit (byte_val c mod 16)) (hex r))
  end.

End Sha256.

(** ** Package phpcompat *)

Module Phpcompat.
Import GoStrings.

(** The catalogue: [major.minor] to its properties; only ["max"], the
    highest released patch, is recorded. *)
Definition phpVersions : gmap string (gmap string string) :=
  list_to_map
    [ ("5.2", {[ "max" := "5.2.17" ]});
      ("5.3", {[ "max" := "5.3.29" ]});
      ("5.4", {[ "max" := "5.4.45" ]});
      ("5.5", {[ "max" := "5.5.38" ]});
      ("5.6", {[ "max" := "5.6.40" ]});
      ("7.0", {[ "max" := "7.0.33" ]});
      ("7.1", {[ "max" := "7.1.31" ]});
      ("7.2", {[ "max" := "7.2.21" ]});
      ("7.3", {[ "max" := "7.3.8" ]}) ].

Definition PhpLatest : string := "7.3.8".

(** [m[k]] on a Go map of strings: the empty string for an absent key. *)
Definition item_get (item : gmap string string) (k : string) : string :=
  default "" (item !! k).

(** [phpVersions[k]["max"]]: an absent [k] gives the nil map, and
    reading the nil map gives the empty string. *)
Definition versions_max (k : string) : string :=
  item_get (default ∅ (phpVersions !! k)) "max".

(** The text of the minor [X.Y] and of the version [X.Y.Z], and the
    catalogue's minors by their numbers. *)
Definition minor_string (x y : Z) : string := Itoa x ++ "." ++ Itoa y.
Definition version_string (x y z : Z) : string :=
  Itoa x ++ "." ++ Itoa y ++ "." ++ Itoa z.

Definition catalogue : list (Z * Z) :=
  [(5, 2); (5, 3); (5, 4); (5, 5); (5, 6); (7, 0); (7, 1); (7, 2); (7, 3)]%Z.

Record CompatibilityRange : Type := {
  Low : string;
  High : string;
  Reported : string;
  MajorMinor : string
}.

Record Compatibility : Type := {
  Source : string;
  Breaks : option CompatibilityRange;
  Warns : option CompatibilityRange
}.

(** [PreviousVersion]. [parts] is a slice indexed at 0, 1 and 2 and
    [maxPrev] one indexed at 0, 1 and 2: an index past the end panics. *)
Definition PreviousVersion (version : string) : outcome string :=
  if String.eqb version "all" then Ret version
  else if String.eqb version "5.2" || String.eqb version "5.2.0" then Ret "5.2.0"
  else
    let parts := Split version "." in
    let parts := if (List.length parts <? 3)%nat then (parts ++ ["0"])%list else parts in
    p1 ← at_index parts 1;
    maxPrev ←
      (if String.eqb p1 "0" then
         p0 ← at_index parts 0;
         let mMPre := if String.eqb (p0 ++ "." ++ p1) "7.0" then "5.6" else "" in
         Ret (Split (versions_max mMPre) ".")
       else
         let pre := wrap (Atoi p1 - 1) in
         p0 ← at_index parts 0;
         Ret (Split (versions_max (p0 ++ "." ++ Itoa pre)) "."));
    s2 ← at_index parts 2;
    let p3 := wrap (Atoi s2 - 1) in
    parts ←
      (if (p3 <? 0)%Z then
         m2 ← at_index maxPrev 2;
         parts ← set_index parts 2 m2;
         p1 ← at_index parts 1;
         if String.eqb p1 "0" then
           m1 ← at_index maxPrev 1;
           parts ← set_index parts 1 m1;
           m0 ← at_index maxPrev 0;
           set_index parts 0 m0
         else
           let p2 := wrap (Atoi p1 - 1) in
           set_index parts 1 (Itoa p2)
       else set_index parts 2 (Itoa p3));
    Ret (Join parts ".").

Fixpoint contains (slice : list string) (value : string) : bool :=
  match slice with
  | [] => false
  | item :: rest => if String.eqb item value then true else contains rest value
  end.

(** [for key := range phpVersions] visits the keys in an order Go does
    not fix; [keys] is the order of one run. *)
Definition PhpMajorVersions_in (keys : list string) : list string :=
  sortStrings (fold_left (fun versions key => (versions ++ [key])%list) keys []).

Definition PhpMajorVersions : list string :=
  PhpMajorVersions_in (map fst (map_to_list phpVersions)).

(** [MergeVersions(n ...[]string)]: the inner loop, over one slice, and
    the outer loop, over the slices. *)
Definition merge_slice (merged slice : list string) : list string :=
fold_left
  (fun merged value =>
     if negb (contains merged value) then (merged ++ [value])%list else merged)
  slice merged.

Definition MergeVersions (n : list (list string)) : list string :=
fold_left merge_slice n [].

Definition ExcludeVersions (versions exclude : list string) : list string :=
  sortStrings
    (fold_left
       (fun included version =>
          if negb (contains exclude version) && negb (contains included version)
          then (included ++ [version])%list else included)
       versions []).

(** Modelled from the spec: [tide.PhpcsFilesMessage], whose declaration
    is not among the sources; the fields of one finding of the sniffer's
    report (Compatibility Message). *)
Record PhpcsFilesMessage : Type := {
  msg_Message : string;
  msg_Source : string;
  msg_Severity : Z;
  msg_Type : string;
  msg_Line : Z;
  msg_Column : Z;
  msg_Fixable : bool
}.

(** The part of github.com/blang/semver the code calls. [MustParse]
    panics on a malformed version. [ParseRange] is used as
    [failRange, _ := semver.ParseRange(s)]: [None] is the nil function
    left by a range that does not parse. *)
Class Semver : Type := {
  Version : Type;
  MustParse : string -> outcome Version;
  ParseRange : string -> option (Version -> bool)
}.

Section Messages.
Context `{Semver} `{Unicode}.

(** [Parse] is declared in a file of the package that is not among the
    sources: it returns [(compat, err)]. *)
Variable Parse : PhpcsFilesMessage -> Compatibility * option error.

Definition range_string (r : CompatibilityRange) : string :=
  if String.eqb (Reported r) "all" then ">=5.2.0" ++ " <=" ++ PhpLatest
  else ">=" ++ Low r ++ " <=" ++ High r.

(** The loop shared by [BreaksVersions] and [NonBreakingVersions]:
    [for majorMinor, item := range phpVersions], in the order [order]
    of one run, appending the minors whose highest patch is in range.
    Calling the nil [failRange] panics. *)
Definition versions_in_range (order : list (string * gmap string string))
    (failRange : option (Version -> bool)) : outcome (list string) :=
  fold_left
    (fun acc entry =>
       versions ← acc;
       v ← MustParse (item_get (snd entry) "max");
       match failRange with
       | None => Panic nil_dereference
       | Some inside =>
           if inside v then Ret (versions ++ [fst entry])%list else Ret versions
       end)
    order (Ret []).

Definition BreaksVersions_in (order : list (string * gmap string string))
    (message : PhpcsFilesMessage) : outcome (option (list string)) :=
  let '(compat, err) := Parse message in
  if bool_decide (err <> None) || negb (String.eqb (ToLower (msg_Type message)) "error")
  then Ret None
  else
    match Breaks compat with
    | None => Panic nil_dereference
    | Some breaks =>
        let failRange := ParseRange (range_string breaks) in
        broken ← versions_in_range order failRange;
        Ret (Some (sortStrings broken))
    end.

Definition NonBreakingVersions_in (order : list (string * gmap string string))
    (message : PhpcsFilesMessage) : outcome (option (list string)) :=
  let '(compat, err) := Parse message in
  if bool_decide (err <> None) || negb (String.eqb (ToLower (msg_Type message)) "warning")
  then Ret None
  else
    match Warns compat with
    | None => Panic nil_dereference
    | Some warns =>
        let failRange := ParseRange (range_string warns) in
        versions ← versions_in_range order failRange;
        Ret (Some (sortStrings versions))
    end.

Definition BreaksVersions : PhpcsFilesMessage -> outcome (option (list string)) :=
  BreaksVersions_in (map_to_list phpVersions).

Definition NonBreakingVersions : PhpcsFilesMessage -> outcome (option (list string)) :=
  NonBreakingVersions_in (map_to_list phpVersions).

(** What the code relies on. The library parses the highest patch of
    every minor of the catalogue; and a range that [Parse] has populated is
    there, with bounds that make a range the library parses. *)
Definition catalogue_parses : Prop :=
  Forall (fun entry => exists v, MustParse (item_get (snd entry) "max") = Ret v)
         (map_to_list phpVersions).


End Messages.

(** [VersionParts(version)]: [parts[1]] and [parts[2]] panic on a version
    with fewer than three parts. *)
Definition VersionParts (version : string) : outcome (Z * Z * Z) :=
  if String.eqb version "all" then Ret (0, 0, 0)%Z
  else
    let parts := Split version "." in
    p0 ← at_index parts 0;
    let major := Atoi p0 in
    p1 ← at_index parts 1;
    let minor := Atoi p1 in
    p2 ← at_index parts 2;
    let patch := Atoi p2 in
    Ret (major, minor, patch).

(** The comparison of github.com/blang/semver that [GetVersionParts]
    calls: [v, _ := semver.Make(s)] keeps the value and drops the error,
    and [v.LT(min)] compares two such values. *)
Class SemverOrder : Type := {
  MadeVersion : Type;
  Make : string -> MadeVersion;
  LT : MadeVersion -> MadeVersion -> bool
}.

Section Parts.
Context `{SemverOrder}.

(** [GetVersionParts(version, lowIn)]: the results [low], [high],
    [majorMinor] and [reported], in this order. [fmt.Sprintf("%s.%s", a, b)]
    is [a], a dot and [b]. The assignment [reported = majorMinor] of the
    last branch is overwritten by [reported = version] before the return. *)
Definition GetVersionParts (version lowIn : string)
  : string * string * string * string :=
  let vParts := Split version "." in
  let majorMinor :=
    match vParts with
    | v0 :: v1 :: _ => v0 ++ "." ++ v1
    | _ => "all"
    end in
  let high :=
    if negb (List.length vParts =? 1)%nat && negb (List.length vParts =? 3)%nat
    then versions_max majorMinor else version in
  let low :=
    if String.eqb lowIn "" then
      if negb (String.eqb majorMinor "all") then majorMinor ++ "." ++ "0" else "all"
    else
      let lowParts := Split lowIn "." in
      if (List.length lowParts =? 2)%nat then lowIn ++ "." ++ "0" else lowIn in
  let v := Make (majorMinor ++ ".0") in
  let min := Make "5.2.0" in
  let '(low, high, majorMinor) :=
    if LT v min && negb (String.eqb majorMinor "all")
    then ("5.2.0", "5.2.0", "5.2") else (low, high, majorMinor) in
  let reported := version in
  (low, high, majorMinor, reported).

End Parts.

Section Affected.
Context `{Semver}.

(** Whether the range [inside] accepts the highest patch of a catalogue
    entry, as the loop of [BreaksVersions] tests it. *)
Definition accepted (inside : Version -> bool) (entry : string * gmap string string)
  : bool :=
  match MustParse (item_get (snd entry) "max") with
  | Ret v => inside v
  | Panic _ => false
  end.

(** The library parses the highest patch of a catalogue entry. *)
Definition parses (entry : string * gmap string string) : Prop :=
  exists v, MustParse (item_get (snd entry) "max") = Ret v.

End Affected.

End Phpcompat.

(** An instance of [Semver] on plain [MAJOR.MINOR.PATCH] versions, with
    the ranges of the one shape the package writes, [>=A <=B]. *)

Module PlainSemver.
Import GoStrings Phpcompat.
Local Open Scope Z_scope.

Definition number (s : string) : option Z :=
  match s with
  | EmptyString => None
  | String "0" (String _ _) => None
  | _ => if all_digits s then digits_value s 0 else None
  end.

Definition parse (s : string) : option (Z * Z * Z) :=
  match Split s "." with
  | [a; b; c] =>
      x ← number a; y ← number b; z ← number c; Some (x, y, z)
  | _ => None
  end.

Definition leb3 (v w : Z * Z * Z) : bool :=
  let '(a, b, c) := v in
  let '(x, y, z) := w in
  (a <? x) || ((a =? x) && ((b <? y) || ((b =? y) && (c <=? z)))).

Definition comparator (s : string) : option (Z * Z * Z -> bool) :=
  if String.prefix ">=" s then (fun lo v => leb3 lo v) <$> parse (drop 2 s)
  else if String.prefix "<=" s then (fun hi v => leb3 v hi) <$> parse (drop 2 s)
  else None.

Definition parse_range (s : string) : option (Z * Z * Z -> bool) :=
  match Split s " " with
  | [a; b] => f ← comparator a; g ← comparator b; Some (fun v => f v && g v)
  | _ => None
  end.

#[global] Instance plain : Semver := {
  Version := Z * Z * Z;
  MustParse s :=
    match parse s with
    | Some v => Ret v
    | None => Panic "Invalid Semantic Version"
    end;
  ParseRange := parse_range
}.

(** The same versions for [GetVersionParts]: a text that does not parse
    is made the zero version. *)
#[global] Instance plain_order : SemverOrder := {
  MadeVersion := Z * Z * Z;
  Make s := default (0, 0, 0) (parse s);
  LT v w := negb (leb3 w v)
}.

(** A stand-in for [strings.ToLower]: its fast path, for message types of
    ASCII letters. *)
#[export] Instance ascii_only : Unicode := {
  ToLower := lower_ascii
}.

(** A stand-in for [Parse] that reads nothing: every finding is reported
    for the window from [5.2.0] to [5.3.29], as for [available since 5.4],
    in the range that goes with its type. *)
Definition window_5_4 : CompatibilityRange :=
  {| Low := "5.2.0"; High := "5.3.29"; Reported := "5.4"; MajorMinor := "5.4" |}.

Definition Parse_5_4 (m : PhpcsFilesMessage) : Compatibility * option error :=
  if String.eqb (lower_ascii (msg_Type m)) "error" then
    ({| Source := msg_Source m; Breaks := Some window_5_4; Warns := None |}, None)
  else
    ({| Source := msg_Source m; Breaks := None; Warns := Some window_5_4 |}, None).

(** A stand-in that recognises every rule and populates no range. *)
Definition Parse_no_range (m : PhpcsFilesMessage) : Compatibility * option error :=
  ({| Source := msg_Source m; Breaks := None; Warns := None |}, None).

Definition short_array (type : string) : PhpcsFilesMessage :=
  {| msg_Message := "Short array syntax (open) is available since 5.4";
     msg_Source := "PHPCompatibility.PHP.ShortArray.Found";
     msg_Severity := 5; msg_Type := type; msg_Line := 9; msg_Column := 9;
     msg_Fixable := false |}.

End PlainSemver.

(** ** path/filepath (Unix) and encoding/base64 *)

Module Filepath.
Import GoStrings.

Definition rooted (path : string) : bool :=
  match path with
  | String c _ => Ascii.eqb c "/"
  | EmptyString => false
  end.

(** One element of the path against the elements kept so far (latest
    first): empty and [.] elements go, [..] removes the element before
    it, stays in front of a relative path and goes at the root. *)
Definition clean_step (is_rooted : bool) (kept : list string) (elem : string)
  : list string :=
  if String.eqb elem "" || String.eqb elem "." then kept
  else if String.eqb elem ".." then
    match kept with
    | top :: below =>
        if String.eqb top ".." then elem :: kept else below
    | [] => if is_rooted then [] else [elem]
    end
  else elem :: kept.

(** [filepath.Clean(path)]. *)
Definition Clean (path : string) : string :=
  let kept := fold_left (clean_step (rooted path)) (Split path "/") [] in
  let body := String.concat "/" (rev kept) in
  if rooted path then "/" ++ body
  else if String.eqb body "" then "." else body.

(** [filepath.Join(elem...)]: the elements from the first non-empty one
    on, joined by [/] and cleaned; the empty string when all are empty. *)
Fixpoint Join (elem : list string) : string :=
  match elem with
  | [] => ""
  | e :: rest => if String.eqb e "" then Join rest else Clean (String.concat "/" elem)
  end.

(** Paths that [Clean] leaves as they are: the elements are not empty and
    are not [.] or [..]. *)
Definition normal_elem (elem : string) : bool :=
  negb (String.eqb elem "" || String.eqb elem "." || String.eqb elem "..").

Definition plain_relative (path : string) : bool :=
  forallb normal_elem (Split path "/").

Definition plain_path (path : string) : bool :=
  if rooted path then plain_relative (drop 1 path) else plain_relative path.

End Filepath.

Module Base64.
Local Open Scope Z_scope.

(** The URL alphabet: [A-Z], [a-z], [0-9], [-], [_]. *)
Definition url_char (n : Z) : ascii :=
  ascii_of_N (Z.to_N
    (if n <? 26 then 65 + n
     else if n <? 52 then 97 + (n - 26)
     else if n <? 62 then 48 + (n - 52)
     else if n =? 62 then 45 else 95)).

Fixpoint encode_bytes (bytes : list Z) : string :=
  match bytes with
  | a :: b :: c :: rest =>
      String (url_char (a / 4))
        (String (url_char ((a mod 4) * 16 + b / 16))
           (String (url_char ((b mod 16) * 4 + c / 64))
              (String (url_char (c mod 64)) (encode_bytes rest))))
  | [a; b] =>
      String (url_char (a / 4))
        (String (url_char ((a mod 4) * 16 + b / 16))
           (String (url_char ((b mod 16) * 4)) "="))
  | [a] =>
      String (url_char (a / 4)) (String (url_char ((a mod 4) * 16)) "==")
  | [] => ""
  end.

(** [base64.URLEncoding.EncodeToString(bytes)], with padding. *)
Definition URLEncoding_EncodeToString (bytes : string) : string :=
  encode_bytes (Sha256.bytes_of_string bytes).

End Base64.

(** ** encoding/json on a slice of strings *)

Module Json.
Local Open Scope N_scope.

Definition hex_char (n : N) : ascii :=
  if n <? 10 then ascii_of_N (48 + n) else ascii_of_N (87 + n).

(** One byte of a string inside the quotes. The quote and the backslash
    get a backslash; newline, carriage return and tab their letter; the
    other control bytes and [<], [>], [&] the form [\u00XY]. Bytes from
    0x80 up are copied, as the encoder does for well-formed UTF-8 other
    than U+2028 and U+2029. *)
Definition encode_byte (c : ascii) : string :=
  let n := N_of_ascii c in
  if (n =? 34) || (n =? 92) then String "\" (String c "")
  else if n =? 10 then "\n"
  else if n =? 13 then "\r"
  else if n =? 9 then "\t"
  else if (n <? 32) || (n =? 60) || (n =? 62) || (n =? 38) then
    "\u00" ++ String (hex_char (n / 16)) (String (hex_char (n mod 16)) "")
  else String c "".

Fixpoint encode_bytes (s : string) : string :=
  match s with
  | EmptyString => ""
  | String c r => encode_byte c ++ encode_bytes r
  end.

Definition quote : ascii := ascii_of_N 34.

Definition encode_string (s : string) : string :=
  String quote (encode_bytes s) ++ String quote "".

(** The compact array: elements separated by a comma, no spaces. *)
Definition encode_array (l : list string) : string :=
  "[" ++ String.concat "," (map encode_string l) ++ "]".

(** [json.Marshal(sums)] for [sums []string]: the nil slice is [null]. *)
Definition Marshal (sums : option (list string)) : string :=
  match sums with
  | None => "null"
  | Some l => encode_array l
  end.

End Json.

(** ** Package source/zip *)

Module Zip.
Import GoStrings.

(** One entry of an archive ([zip.File]): its name, what
    [FileInfo().IsDir()] and [Mode()] say, and its uncompressed bytes. *)
Record File : Type := {
  Name : string;
  IsDir : bool;
  Mode : N;
  Content : string
}.

(** The disk: the regular files by path, and the directories asked for. *)
Record FileSystem : Type := {
  regular : gmap string string;
  directories : gset string
}.

Definition write_file (path content : string) (fs : FileSystem) : FileSystem :=
  {| regular := <[path := content]> (regular fs); directories := directories fs |}.

Definition make_directory (path : string) (fs : FileSystem) : FileSystem :=
  {| regular := regular fs; directories := {[ path ]} ∪ directories fs |}.

(** Where [ioCopy] writes to. *)
Inductive sink : Type :=
| ToHash (entry : string)
| ToFile (path : string).

(** What the operating system and the network do in one run: the response
    body of [http.Get], the entries [zip.OpenReader] reads from the bytes of
    an archive, and the error, if any, of each of the package's file
    operations ([createFile], [makeDirectoryAll], [openFile], [ioCopy]) and
    of [file.Open()] on an entry of the archive, for the reader that is
    then copied to the given sink. *)
Record Env : Type := {
  http_Get : string -> error + string;
  zip_OpenReader : string -> error + list File;
  createFile_err : string -> option error;
  makeDirectoryAll_err : string -> option error;
  openFile_err : string -> option error;
  ioCopy_err : sink -> option error;
  file_Open_err : sink -> option error
}.

Record Zip : Type := {
  url : string;
  dest : string;
  files : option (list string);
  checksum : string
}.

Definition sourceFilename : string := "source.zip".

Definition NewZip (u : string) : Zip :=
  {| url := u; dest := ""; files := None; checksum := "" |}.

(** The first loop of [unzip]: the name of a directory entry replaces
    [rootPath] when it is shorter, or when [rootPath] is empty. *)
Definition rootPath_step (rootPath : string) (file : File) : string :=
  if negb (IsDir file) then rootPath
  else if (String.length (Name file) <? String.length rootPath)%nat
          || String.eqb rootPath ""
       then Name file else rootPath.

Definition rootPath_of (entries : list File) : string :=
  fold_left rootPath_step entries "".




Definition is_file (file : File) : bool := negb (IsDir file).

(** Where an entry goes. *)
Definition target (destination rootPath : string) (file : File) : string :=
  Filepath.Join [destination; TrimPrefix (Name file) rootPath].

Definition sha256_hex (data : string) : string := Sha256.hex (Sha256.Sum256 data).

(** The second loop of [unzip]; [filenames] and [checksums] are the
    results so far. An error returns at once, with nil results. The error
    of [file.Open()] is dropped ([fileReader, _ := file.Open()]): when it
    fails the reader is nil, and [io.Copy] panics when it reads from it;
    the second time the target file has been created by then. *)
Fixpoint extract (env : Env) (destination rootPath : string) (entries : list File)
    (filenames checksums : option (list string)) (fs : FileSystem)
  : outcome (option (list string) * option (list string) * option error) * FileSystem :=
  match entries with
  | [] => (Ret (filenames, checksums, None), fs)
  | file :: rest =>
      let path := target destination rootPath file in
      if IsDir file then
        let fs :=
          match makeDirectoryAll_err env path with
          | None => make_directory path fs
          | Some _ => fs
          end in
        extract env destination rootPath rest filenames checksums fs
      else
        let filenames := append_slice filenames path in
        match file_Open_err env (ToHash (Name file)) with
        | Some _ => (Panic nil_dereference, fs)
        | None =>
            match ioCopy_err env (ToHash (Name file)) with
            | Some err => (Ret (None, None, Some err), fs)
            | None =>
                let checksums := append_slice checksums (sha256_hex (Content file)) in
                match openFile_err env path with
                | Some err => (Ret (None, None, Some err), fs)
                | None =>
                    let fs := write_file path "" fs in
                    match file_Open_err env (ToFile path) with
                    | Some _ => (Panic nil_dereference, fs)
                    | None =>
                        match ioCopy_err env (ToFile path) with
                        | Some err => (Ret (None, None, Some err), fs)
                        | None =>
                            extract env destination rootPath rest filenames checksums
                              (write_file path (Content file) fs)
                        end
                    end
                end
            end
        end
  end.

(** [unzip(source, destination)]. *)
Definition unzip (env : Env) (source destination : string) (fs : FileSystem)
  : outcome (option (list string) * option (list string) * option error) * FileSystem :=
  match zip_OpenReader env (default "" (regular fs !! source)) with
  | inl err => (Ret (None, None, Some err), fs)
  | inr entries =>
      match makeDirectoryAll_err env destination with
      | Some err => (Ret (None, None, Some err), fs)
      | None =>
          let fs := make_directory destination fs in
          extract env destination (rootPath_of entries) entries None None fs
      end
  end.

(** [combinedChecksum(sums)]: [sort.Strings] leaves the nil slice nil. *)
Definition combinedChecksum (sums : option (list string)) : string :=
  let sums := sortStrings <$> sums in
  let jsonChecksums := Json.Marshal sums in
  sha256_hex jsonChecksums.

(** The checksum as the specification words it: the hexadecimal SHA-256
    of the compact JSON array of the digests in ascending order. *)
Definition checksum_of_sorted_array (digests : list string) : string :=
  sha256_hex (Json.encode_array (sortStrings digests)).

(** [downloadFile(source, destination)]. *)
Definition downloadFile (env : Env) (source destination : string) (fs : FileSystem)
  : option error * FileSystem :=
  match createFile_err env destination with
  | Some err => (Some err, fs)
  | None =>
      let fs := write_file destination "" fs in
      match http_Get env source with
      | inl err => (Some err, fs)
      | inr body =>
          match ioCopy_err env (ToFile destination) with
          | Some err => (Some err, fs)
          | None => (None, write_file destination body fs)
          end
      end
  end.

(** [(m *Zip) PrepareFiles(dest)]. [m.files] is assigned before the error
    of [unzip] is looked at; a panic of [unzip] leaves [m] with the new
    [dest] only. *)
Definition PrepareFiles (env : Env) (m : Zip) (d : string) (fs : FileSystem)
  : outcome (option error) * Zip * FileSystem :=
  let m := {| url := url m; dest := d; files := files m; checksum := checksum m |} in
  let fs := make_directory d fs in
  match downloadFile env (url m) (d ++ "/" ++ sourceFilename) fs with
  | (Some err, fs) => (Ret (Some err), m, fs)
  | (None, fs) =>
      match unzip env (d ++ "/" ++ sourceFilename) (d ++ "/unzipped") fs with
      | (Panic why, fs) => (Panic why, m, fs)
      | (Ret (filenames, checksums, err), fs) =>
          let m :=
            {| url := url m; dest := d; files := filenames; checksum := checksum m |} in
          match err with
          | Some err => (Ret (Some err), m, fs)
          | None =>
              (Ret None,
               {| url := url m; dest := d; files := filenames;
                  checksum := combinedChecksum checksums |},
               fs)
          end
      end
  end.

(** A run in which no operation fails and every URL serves an archive
    with the entries [entries]. *)
Definition quiet (entries : list File) : Env :=
  {| http_Get := fun _ => inr "PK";
     zip_OpenReader := fun _ => inr entries;
     createFile_err := fun _ => None;
     makeDirectoryAll_err := fun _ => None;
     openFile_err := fun _ => None;
     ioCopy_err := fun _ => None;
     file_Open_err := fun _ => None |}.

Definition empty_disk : FileSystem := {| regular := ∅; directories := ∅ |}.

Definition directory (name : string) : File :=
  {| Name := name; IsDir := true; Mode := 2147484141; Content := "" |}.

Definition regular_file (name content : string) : File :=
  {| Name := name; IsDir := false; Mode := 420; Content := content |}.

(** An archive with one top directory, and one with two. *)
Definition plugin_archive : list File :=
  [ directory "plugin/";
    regular_file "plugin/plugin.php" "<?php // Plugin Name: Example";
    directory "plugin/inc/";
    regular_file "plugin/inc/a.php" "<?php" ].


(** The same contents as [plugin_archive], under other names and in
    another order, without directory entries. *)
Definition plugin_archive_flat : list File :=
  [ regular_file "b.php" "<?php";
    regular_file "a.php" "<?php // Plugin Name: Example" ].

(** A run in which no target file can be opened. *)
Definition read_only (entries : list File) : Env :=
  {| http_Get := fun _ => inr "PK";
     zip_OpenReader := fun _ => inr entries;
     createFile_err := fun _ => None;
     makeDirectoryAll_err := fun _ => None;
     openFile_err := fun _ => Some (errors_New "permission denied");
     ioCopy_err := fun _ => None;
     file_Open_err := fun _ => None |}.

(** A run in which no entry of the archive can be opened for reading, as
    for entries of a compression method the library does not know. *)
Definition unreadable (entries : list File) : Env :=
  {| http_Get := fun _ => inr "PK";
     zip_OpenReader := fun _ => inr entries;
     createFile_err := fun _ => None;
     makeDirectoryAll_err := fun _ => None;
     openFile_err := fun _ => None;
     ioCopy_err := fun _ => None;
     file_Open_err := fun _ => Some (errors_New "zip: unsupported compression algorithm") |}.

(** Strings of lower-case hexadecimal digits. *)
Definition is_hex (c : ascii) : bool :=
  let n := N_of_ascii c in
  (((48 <=? n) && (n <=? 57)) || ((97 <=? n) && (n <=? 102)))%N.

Fixpoint all_hex (s : string) : bool :=
  match s with
  | EmptyString => true
  | String c r => is_hex c && all_hex r
  end.

Definition GetChecksum (m : Zip) : string := checksum m.
Definition GetFiles (m : Zip) : option (list string) := files m.

End Zip.

(** ** Package process: the Ingest stage *)

Module Process.
Import Zip.

(** Modelled from the spec: [message.Message] and its audits, whose
    declarations are not among the sources; the fields of the Job Message. *)
Record AuditOptions : Type := {
  Standard : string;
  RuntimeSet : string;
  StandardOverride : string
}.

Record Audit : Type := {
  audit_Type : string;
  audit_Options : AuditOptions
}.

Record Message : Type := {
  Title : string;
  Slug : string;
  SourceURL : string;
  SourceType : string;
  ResponseAPIEndpoint : string;
  Audits : list Audit
}.

(** [source.Source]: what Ingest asks of a source manager. *)
Class Source (S : Type) : Type := {
  source_PrepareFiles :
    Env -> S -> string -> FileSystem -> outcome (option error) * S * FileSystem;
  source_GetChecksum : S -> string;
  source_GetFiles : S -> option (list string)
}.

#[global] Instance Zip_Source : Source Zip := {
  source_PrepareFiles := PrepareFiles;
  source_GetChecksum := GetChecksum;
  source_GetFiles := GetFiles
}.

(** A value of the interface type: an implementation with its state. *)
Record manager : Type := Manager {
  manager_state : Type;
  manager_source : Source manager_state;
  manager_value : manager_state
}.
Arguments Manager {manager_state manager_source} manager_value.

(** The values kept in the result map ([interface{}]). *)
Inductive value : Type :=
| VString (s : string)
| VStrings (l : option (list string)).

Record Ingest : Type := {
  Msg : Message;
  Result : gmap string value;
  FilesPath : string;
  TempFolder : string;
  sourceManager : option manager
}.

Definition with_sourceManager (ig : Ingest) (m : option manager) : Ingest :=
  {| Msg := Msg ig; Result := Result ig; FilesPath := FilesPath ig;
     TempFolder := TempFolder ig; sourceManager := m |}.

Definition SetFilesPath (ig : Ingest) (path : string) : Ingest :=
  {| Msg := Msg ig; Result := Result ig; FilesPath := path;
     TempFolder := TempFolder ig; sourceManager := sourceManager ig |}.

Definition SetMessage (ig : Ingest) (msg : Message) : Ingest :=
  {| Msg := msg; Result := Result ig; FilesPath := FilesPath ig;
     TempFolder := TempFolder ig; sourceManager := sourceManager ig |}.

Definition with_Result (ig : Ingest) (r : gmap string value) : Ingest :=
  {| Msg := Msg ig; Result := r; FilesPath := FilesPath ig;
     TempFolder := TempFolder ig; sourceManager := sourceManager ig |}.

(** [validateMessage(msg)]. *)
Definition validateMessage (msg : Message) : option error :=
  if String.eqb (Title msg) "" then
    Some (errors_New "message does not have a title")
  else if String.eqb (ResponseAPIEndpoint msg) "" then
    Some (errors_New (Title msg ++ ": does not provide an endpoint"))
  else if String.eqb (SourceURL msg) "" then
    Some (errors_New (Title msg ++ ": source url is empty"))
  else if String.eqb (SourceType msg) "" then
    Some (errors_New (Title msg ++ ": source type is empty (e.g. zip, git)"))
  else None.

Section IngestStage.

(** [source.GetKind] and [Process.Error] are declared in files that are
    not among the sources: the kind of source a URL names, and the error
    a process makes from a text. *)
Variable GetKind : string -> string.
Variable ProcessError : Ingest -> string -> error.
Variable env : Env.

Definition audit_path (ig : Ingest) : string :=
  TempFolder ig ++ "/audit-"
    ++ Base64.URLEncoding_EncodeToString (Sha256.Sum256 (SourceURL (Msg ig))).

(** [(ig *Ingest) Do()]; logging left out. A panic of [PrepareFiles]
    passes through, with the state as the manager left it. *)
Definition Do (ig : Ingest) (fs : FileSystem)
  : outcome (option error) * Ingest * FileSystem :=
  let ig :=
    if String.eqb (GetKind (SourceURL (Msg ig))) "zip"
    then with_sourceManager ig (Some (Manager (NewZip (SourceURL (Msg ig)))))
    else ig in
  match sourceManager ig with
  | None =>
      (Ret (Some (ProcessError ig
                    "could not get appropriate source manager to handle ingest")),
       ig, fs)
  | Some (@Manager St impl m) =>
      let ig := SetFilesPath ig (audit_path ig) in
      let '(err, m, fs) := source_PrepareFiles env m (FilesPath ig) fs in
      let ig := with_sourceManager ig (Some (Manager m)) in
      match err with
      | Panic why => (Panic why, ig, fs)
      | Ret (Some err) => (Ret (Some err), ig, fs)
      | Ret None =>
          let checksum := source_GetChecksum m in
          if String.eqb checksum "" then
            (Ret (Some (ProcessError ig "could not calculate project checksum")), ig, fs)
          else
            let result := Result ig in
            let result := <["checksum" := VString checksum]> result in
            let result := <["files" := VStrings (source_GetFiles m)]> result in
            let result := <["filesPath" := VString (FilesPath ig)]> result in
            (Ret None, with_Result ig result, fs)
      end
  end.

(** What one turn of the loop of [Run] sends: an error on the error
    channel, or the process on [Out]. *)
Inductive sent : Type :=
| OnErrc (err : error)
| OnOut (ig : Ingest).

(** One turn of the loop of [Run], for the message [msg] read from [In].
    A panic of [Do] ends the goroutine and the program: nothing is sent. *)
Definition Run_turn (ig : Ingest) (msg : Message) (fs : FileSystem)
  : outcome sent * Ingest * FileSystem :=
  let ig := with_Result ig ∅ in
  match validateMessage msg with
  | Some err => (Ret (OnErrc (errors_New ("Ingest Error: " ++ Error err))), ig, fs)
  | None =>
      let ig := SetMessage ig msg in
      match Do ig fs with
      | (Panic why, ig, fs) => (Panic why, ig, fs)
      | (Ret (Some err), ig, fs) =>
          (Ret (OnErrc (errors_New ("Ingest Error: " ++ Error err))), ig, fs)
      | (Ret None, ig, fs) => (Ret (OnOut ig), ig, fs)
      end
  end.

End IngestStage.

(** A message and a process to run the stage on: every URL is a zip, and
    [Process.Error] keeps the text. *)
Definition plugin_message : Message :=
  {| Title := "plugin"; Slug := "plugin";
     SourceURL := "https://example.com/plugin.zip"; SourceType := "zip";
     ResponseAPIEndpoint := "https://example.com/api";
     Audits := [ {| audit_Type := "phpcs";
                    audit_Options := {| Standard := "phpcompatibility";
                                        RuntimeSet := "testVersion 5.2-";
                                        StandardOverride := "" |} |} ] |}.

Definition fresh_ingest (msg : Message) : Ingest :=
  {| Msg := msg; Result := ∅; FilesPath := ""; TempFolder := "/tmp";
     sourceManager := None |}.

Definition always_zip (u : string) : string := "zip".

Definition text_error (ig : Ingest) (text : string) : error := errors_New text.

(** A [GetKind] that knows no zip, and a process that handled the zip at
    [first_url] before. *)
Definition never_zip (u : string) : string := "git".

Definition first_url : string := "https://example.com/first.zip".

Definition used_ingest (msg : Message) : Ingest :=
  {| Msg := msg; Result := ∅; FilesPath := ""; TempFolder := "/tmp";
     sourceManager := Some (Manager (NewZip first_url)) |}.

End Process.

(** * The library functions *)

Import GoStrings.

Import GoStrings.

(** ** The order on strings *)

Lemma ascii_compare_trans (c1 c2 c3 : ascii) (o : comparison) :
  o <> Eq -> Ascii.compare c1 c2 = o -> Ascii.compare c2 c3 = o ->
  Ascii.compare c1 c3 = o.
Proof.
  unfold Ascii.compare. intros Ho H12 H23.
  destruct o; try congruence.
  - rewrite N.compare_lt_iff in *. lia.
  - rewrite N.compare_gt_iff in *. lia.
Qed.

Lemma ascii_compare_refl (c : ascii) : Ascii.compare c c = Eq.
Proof. apply N.compare_refl. Qed.

Lemma string_compare_refl (s : string) : String.compare s s = Eq.
Proof. induction s as [|c s IH]; simpl; [done|]. by rewrite ascii_compare_refl. Qed.

Lemma string_compare_lt_trans (s1 s2 s3 : string) :
  String.compare s1 s2 = Lt -> String.compare s2 s3 = Lt -> String.compare s1 s3 = Lt.
Proof.
  revert s2 s3. induction s1 as [|c1 s1 IH]; intros [|c2 s2] [|c3 s3]; simpl; try done.
  destruct (Ascii.compare c1 c2) eqn:E12; try done;
    destruct (Ascii.compare c2 c3) eqn:E23; try done; intros H12 H23.
  - apply Ascii.compare_eq_iff in E12, E23. subst.
    rewrite ascii_compare_refl. eauto.
  - apply Ascii.compare_eq_iff in E12. subst. by rewrite E23.
  - apply Ascii.compare_eq_iff in E23. subst. by rewrite E12.
  - by rewrite (ascii_compare_trans c1 c2 c3 Lt).
Qed.

Lemma str_lt_compare (a b : string) : str_lt a b <-> String.compare a b = Lt.
Proof. unfold str_lt, String.ltb. destruct (String.compare a b); split; congruence. Qed.

Lemma str_le_lt_eq (a b : string) : str_le a b <-> str_lt a b \/ a = b.
Proof.
  rewrite str_lt_compare. unfold str_le, String.leb.
  destruct (String.compare a b) eqn:E; split; try done; auto.
  - intros _. right. by apply String.compare_eq_iff.
  - intros [?| ->]; [done|]. by rewrite string_compare_refl in E.
Qed.

Lemma str_lt_trans : Transitive str_lt.
Proof. intros a b c. rewrite !str_lt_compare. apply string_compare_lt_trans. Qed.

#[global] Existing Instance str_lt_trans.

Lemma str_lt_irrefl : Irreflexive str_lt.
Proof. intros a. red. rewrite str_lt_compare, string_compare_refl. done. Qed.

#[global] Existing Instance str_lt_irrefl.

Lemma str_le_refl : Reflexive str_le.
Proof. intros a. apply str_le_lt_eq. by right. Qed.

#[global] Existing Instance str_le_refl.

Lemma str_le_trans : Transitive str_le.
Proof.
  intros a b c. rewrite !str_le_lt_eq. intros [Hab| ->] [Hbc| ->]; auto.
  left. by transitivity b.
Qed.

#[global] Existing Instance str_le_trans.

Lemma str_le_antisym : AntiSymm (=) str_le.
Proof. intros a b Hab Hba. by apply String.leb_antisym. Qed.

#[global] Existing Instance str_le_antisym.

Lemma str_le_total (a b : string) : str_le a b \/ str_le b a.
Proof. apply String.leb_total. Qed.

Lemma str_le_neq_lt (a b : string) : str_le a b -> a <> b -> str_lt a b.
Proof. rewrite str_le_lt_eq. intros [?|?]; done. Qed.


Section Sorting.

Lemma insert_sorted_perm (x : string) (l : list string) :
  Permutation (x :: l) (insert_sorted x l).
Proof.
  induction l as [|y l IH]; simpl; [done|].
  destruct (String.leb x y); [done|].
  rewrite perm_swap. by constructor.
Qed.

Lemma sortStrings_perm (l : list string) : Permutation l (sortStrings l).
Proof.
  induction l as [|x l IH]; simpl; [done|].
  rewrite <- insert_sorted_perm. by constructor.
Qed.

Lemma insert_sorted_sorted (x : string) (l : list string) :
  StronglySorted str_le l -> StronglySorted str_le (insert_sorted x l).
Proof.
  induction 1 as [|y l Hl IH Hy]; simpl.
  - repeat constructor.
  - destruct (String.leb x y) eqn:E.
    + constructor; [by constructor|]. constructor; [done|].
      eapply Forall_impl; [exact Hy|]. intros z Hz. by transitivity y.
    + constructor; [done|].
      rewrite <- insert_sorted_perm. constructor; [|done].
      destruct (str_le_total x y) as [H|H]; [|done]. unfold str_le in H. congruence.
Qed.

Lemma sortStrings_sorted (l : list string) : StronglySorted str_le (sortStrings l).
Proof.
  induction l as [|x l IH]; simpl; [constructor|]. by apply insert_sorted_sorted.
Qed.

(** [sort.Strings] has one possible result: the sorted arrangement. *)
Lemma sortStrings_unique (l l' : list string) :
  Permutation l l' -> StronglySorted str_le l' -> sortStrings l = l'.
Proof.
  intros Hp Hs. apply (StronglySorted_unique str_le); [apply sortStrings_sorted|done|].
  by rewrite <- sortStrings_perm.
Qed.

Lemma sortStrings_Permutation (l l' : list string) :
  Permutation l l' -> sortStrings l = sortStrings l'.
Proof.
  intros Hp. apply sortStrings_unique; [|apply sortStrings_sorted].
  by rewrite <- sortStrings_perm.
Qed.

Lemma sorted_NoDup_strict (l : list string) :
  StronglySorted str_le l -> NoDup l -> StronglySorted str_lt l.
Proof.
  induction 1 as [|x l Hl IH Hx]; intros Hnd; [constructor|].
  apply NoDup_cons in Hnd as [Hx' Hnd]. constructor; [auto|].
  apply Forall_forall. intros y Hy. apply str_le_neq_lt.
  - rewrite Forall_forall in Hx. auto.
  - intros ->. done.
Qed.

Lemma strict_sorted_NoDup (l : list string) : StronglySorted str_lt l -> NoDup l.
Proof.
  induction 1 as [|x l Hl IH Hx]; constructor; [|done].
  intros Hin. rewrite Forall_forall in Hx. by apply (irreflexivity str_lt x), Hx.
Qed.

Lemma strict_sorted_le (l : list string) :
  StronglySorted str_lt l -> StronglySorted str_le l.
Proof.
  induction 1 as [|x l Hl IH Hx]; constructor; [done|].
  eapply Forall_impl; [exact Hx|]. intros y Hy. apply str_le_lt_eq. by left.
Qed.

Lemma sortStrings_strict (l : list string) :
  NoDup l -> StronglySorted str_lt (sortStrings l).
Proof.
  intros Hnd. apply sorted_NoDup_strict; [apply sortStrings_sorted|].
  by rewrite <- sortStrings_perm.
Qed.

End Sorting.

Section Decimal.
Local Open Scope Z_scope.

Lemma wrap_id (z : Z) : int_min <= z <= int_max -> wrap z = z.
Proof.
  unfold wrap, int_min, int_max. intros Hz.
  rewrite Z.mod_small; lia.
Qed.

Lemma digit_char_spec (d : Z) :
  0 <= d < 10 ->
  is_digit (digit_char d) = true /\ digit_val (digit_char d) = d
  /\ digit_char d <> "."%char /\ digit_char d <> "-"%char /\ digit_char d <> "+"%char.
Proof.
  intros Hd.
  assert (d = 0 \/ d = 1 \/ d = 2 \/ d = 3 \/ d = 4 \/ d = 5 \/ d = 6 \/ d = 7
          \/ d = 8 \/ d = 9) as Hc by lia.
  repeat (destruct Hc as [->|Hc]); [..|subst d]; by vm_compute.
Qed.

Lemma utoa_value (fuel : nat) (n : Z) (acc : string) :
  0 <= n < 2 ^ Z.of_nat fuel ->
  digits_value (utoa fuel n acc) 0 = digits_value acc n.
Proof.
  revert n acc. induction fuel as [|f IH]; intros n acc Hn.
  - simpl in *. by replace n with 0 by lia.
  - cbn [utoa]. rewrite Nat2Z.inj_succ, Z.pow_succ_r in Hn by lia.
    assert (0 <= n mod 10 < 10) as Hd by (apply Z.mod_pos_bound; lia).
    destruct (digit_char_spec _ Hd) as (Hdig & Hval & _).
    pose proof (Z.div_mod n 10 ltac:(lia)) as Hdm.
    destruct (Z.eqb_spec (n / 10) 0) as [Hq|Hq].
    + cbn [digits_value]. rewrite Hdig, Hval. f_equal. lia.
    + rewrite IH.
      * cbn [digits_value]. rewrite Hdig, Hval. f_equal. lia.
      * split; [apply Z.div_pos; lia|].
        apply Z.div_lt_upper_bound; lia.
Qed.

Lemma digits_fuel_enough (n : Z) : 0 <= n -> 0 <= n < 2 ^ Z.of_nat (digits_fuel n).
Proof.
  intros Hn. split; [done|]. unfold digits_fuel.
  rewrite Nat2Z.inj_succ, Z2Nat.id by apply Z.log2_nonneg.
  destruct (Z.eq_dec n 0) as [->|Hne]; [done|].
  apply Z.log2_spec. lia.
Qed.


Lemma utoa_digits (fuel : nat) (n : Z) (acc : string) :
  0 <= n -> all_digits acc = true -> all_digits (utoa fuel n acc) = true.
Proof.
  revert n acc. induction fuel as [|f IH]; intros n acc Hn Hacc; [done|].
  cbn [utoa].
  assert (0 <= n mod 10 < 10) as Hd by (apply Z.mod_pos_bound; lia).
  destruct (digit_char_spec _ Hd) as (Hdig & _).
  assert (all_digits (String (digit_char (n mod 10)) acc) = true) as Hacc'.
  { cbn [all_digits]. by rewrite Hdig. }
  destruct (n / 10 =? 0); [done|]. apply IH; [|done]. apply Z.div_pos; lia.
Qed.

Lemma utoa_nonempty (fuel : nat) (n : Z) (acc : string) :
  utoa (S fuel) n acc <> "".
Proof.
  revert n acc. induction fuel as [|f IH]; intros n acc.
  - cbn. by destruct (n / 10 =? 0).
  - cbn [utoa]. destruct (n / 10 =? 0); [done|]. apply IH.
Qed.

(** A string of digits is no sign; [Atoi] reads it whole. *)
Lemma digit_not_sign (c : ascii) :
  is_digit c = true -> c <> "-"%char /\ c <> "+"%char /\ c <> "."%char.
Proof.
  destruct c as [[] [] [] [] [] [] [] []]; vm_compute; intros; try discriminate;
    repeat split; discriminate.
Qed.

Lemma is_digit_val (c : ascii) : is_digit c = true -> 0 <= digit_val c <= 9.
Proof.
  unfold is_digit, digit_val. intros Hc. apply andb_prop in Hc as [Hlo Hhi].
  apply N.leb_le in Hlo, Hhi. lia.
Qed.

Lemma digits_value_ge (s : string) (acc v : Z) :
  0 <= acc -> digits_value s acc = Some v -> acc <= v.
Proof.
  revert acc. induction s as [|c r IH]; intros acc Hacc; cbn [digits_value].
  - intros E. injection E as <-. lia.
  - destruct (is_digit c) eqn:Hc; [|discriminate]. intros E.
    pose proof (is_digit_val c Hc). apply IH in E; lia.
Qed.

(** On digits whose value fits 64 bits the loop of [ParseUint] reads the
    value. *)
Lemma parse_uint_digits (s : string) (acc v : Z) :
  0 <= acc -> digits_value s acc = Some v -> v < 2 ^ 64 ->
  parse_uint s acc = Value v.
Proof.
  revert acc. induction s as [|c r IH]; intros acc Hacc; cbn [digits_value parse_uint].
  - intros E _. by injection E as <-.
  - destruct (is_digit c) eqn:Hc; [|discriminate]. intros E Hv.
    pose proof (is_digit_val c Hc) as Hd.
    assert (0 <= acc * 10 + digit_val c) as Hnext by lia.
    pose proof (digits_value_ge r _ v Hnext E) as Hge.
    unfold uint_cutoff. change ((2 ^ 64 - 1) / 10 + 1) with 1844674407370955162.
    destruct (Z.geb_spec acc 1844674407370955162); [lia|].
    destruct (Z.gtb_spec (acc * 10 + digit_val c) (2 ^ 64 - 1)); [lia|].
    apply IH; [lia|done|done].
Qed.

Lemma Atoi_digits (s : string) (v : Z) :
  s <> "" -> all_digits s = true -> digits_value s 0 = Some v -> v < 2 ^ 63 ->
  Atoi s = v.
Proof.
  destruct s as [|c r]; [done|]. intros _ Hall Hv Hlt.
  cbn [all_digits] in Hall. apply andb_prop in Hall as [Hc _].
  destruct (digit_not_sign c Hc) as (Hm & Hp & _).
  assert (v < 2 ^ 64) as Hlt64 by lia.
  pose proof (parse_uint_digits _ 0 v (Z.le_refl 0) Hv Hlt64) as Hu.
  unfold Atoi.
  destruct c as [[] [] [] [] [] [] [] []]; try congruence;
    rewrite Hu; destruct (Z.geb_spec v (2 ^ 63)); try lia; reflexivity.
Qed.

Lemma parse_uint_nonneg (s : string) (acc v : Z) :
  0 <= acc -> parse_uint s acc = Value v -> 0 <= v.
Proof.
  revert acc. induction s as [|c r IH]; intros acc Hacc; cbn [parse_uint].
  - intros E. by injection E as <-.
  - destruct (is_digit c) eqn:Hc; [|discriminate].
    pose proof (is_digit_val c Hc) as Hd.
    destruct (acc >=? uint_cutoff); [discriminate|].
    destruct (acc * 10 + digit_val c >? 2 ^ 64 - 1); [discriminate|].
    apply IH. lia.
Qed.

(** Whatever the string holds, [Atoi] gives a value of the type [int]. *)
Lemma Atoi_range (s : string) : int_min <= Atoi s <= int_max.
Proof.
  assert (forall (neg : bool) (body : string),
            int_min <= match body with
                       | EmptyString => 0
                       | _ =>
                           match parse_uint body 0 with
                           | SyntaxError => 0
                           | RangeError => if neg then int_min else int_max
                           | Value v =>
                               if neg then (if v >? 2 ^ 63 then int_min else - v)
                               else (if v >=? 2 ^ 63 then int_max else v)
                           end
                       end <= int_max) as Hgen.
  { intros neg body. unfold int_min, int_max. destruct body as [|c r]; [lia|].
    destruct (parse_uint (String c r) 0) as [v| |] eqn:E.
    - apply parse_uint_nonneg in E; [|lia].
      destruct neg; [destruct (Z.gtb_spec v (2 ^ 63))|destruct (Z.geb_spec v (2 ^ 63))];
        lia.
    - lia.
    - destruct neg; lia. }
  unfold Atoi. destruct s as [|c r]; [apply (Hgen false "")|].
  destruct c as [[] [] [] [] [] [] [] []];
    first [apply (Hgen true r)|apply (Hgen false r)|apply (Hgen false (String _ r))].
Qed.

Lemma Atoi_Itoa (z : Z) : 0 <= z < 2 ^ 63 -> Atoi (Itoa z) = z.
Proof.
  intros Hz. unfold Itoa. destruct (Z.ltb_spec z 0); [lia|].
  apply Atoi_digits; [apply utoa_nonempty|by apply utoa_digits| |lia].
  rewrite utoa_value; [done|]. by apply digits_fuel_enough.
Qed.

(** [Itoa] has a left inverse on all of [Z]: it is injective. *)
Lemma read_int_Itoa (z : Z) : read_int (Itoa z) = Some z.
Proof.
  unfold Itoa. destruct (Z.ltb_spec z 0) as [Hneg|Hpos].
  - cbn [read_int]. rewrite utoa_value by (apply digits_fuel_enough; lia).
    cbn. f_equal. lia.
  - pose proof (utoa_digits (digits_fuel z) z "" Hpos eq_refl) as Hall.
    pose proof (utoa_value (digits_fuel z) z "" (digits_fuel_enough z Hpos)) as Hv.
    destruct (utoa (digits_fuel z) z "") as [|c r] eqn:E.
    { by apply utoa_nonempty in E. }
    cbn [all_digits] in Hall. apply andb_prop in Hall as [Hc _].
    destruct (digit_not_sign c Hc) as (Hm & _).
    destruct c as [[] [] [] [] [] [] [] []]; try congruence; exact Hv.
Qed.

Lemma Itoa_inj (a b : Z) : Itoa a = Itoa b -> a = b.
Proof.
  intros E. pose proof (read_int_Itoa a) as Ha. rewrite E, read_int_Itoa in Ha. congruence.
Qed.

End Decimal.

Section Splitting.


Lemma Split_nonempty (s : string) (sep : ascii) : Split s sep <> [].
Proof.
  induction s as [|c r IH]; cbn [Split]; [done|].
  destruct (Ascii.eqb c sep); [done|]. by destruct (Split r sep).
Qed.

Lemma Split_no_sep (s : string) (sep : ascii) :
  has_byte s sep = false -> Split s sep = [s].
Proof.
  induction s as [|c r IH]; cbn [Split has_byte]; [done|].
  intros H. apply orb_false_elim in H as [Hc Hr]. by rewrite Hc, IH.
Qed.

(** The pieces of [a ++ sep ++ b] are those of [a], then those of [b]. *)
Lemma Split_app (a b : string) (sep : ascii) :
  Split (a ++ String sep b) sep = (Split a sep ++ Split b sep)%list.
Proof.
  induction a as [|c r IH]; simpl.
  - by rewrite Ascii.eqb_refl.
  - destruct (Ascii.eqb c sep); [by rewrite IH|].
    rewrite IH. pose proof (Split_nonempty r sep). by destruct (Split r sep).
Qed.

Lemma all_digits_no_dot (s : string) : all_digits s = true -> has_byte s "." = false.
Proof.
  induction s as [|c r IH]; cbn [all_digits has_byte]; [done|].
  intros H. apply andb_prop in H as [Hc Hr].
  destruct (digit_not_sign c Hc) as (_ & _ & Hd).
  rewrite IH by done. destruct (Ascii.eqb_spec c "."); [done|done].
Qed.

Lemma Itoa_no_dot (z : Z) : has_byte (Itoa z) "." = false.
Proof.
  unfold Itoa. destruct (Z.ltb_spec z 0).
  - cbn [has_byte]. change (Ascii.eqb "-" ".") with false. cbn [orb].
    apply all_digits_no_dot, utoa_digits; [lia|done].
  - apply all_digits_no_dot, utoa_digits; [lia|done].
Qed.

Lemma Split_version (X Y Zs : string) :
  has_byte X "." = false -> has_byte Y "." = false -> has_byte Zs "." = false ->
  Split (X ++ "." ++ Y ++ "." ++ Zs) "." = [X; Y; Zs].
Proof.
  intros HX HY HZ. change (X ++ "." ++ Y ++ "." ++ Zs)
    with (X ++ String "." (Y ++ String "." Zs)).
  by rewrite !Split_app, !Split_no_sep.
Qed.

End Splitting.

Section LibraryExamples.

Example Split_ex1 : Split "7.3.8" "." = ["7"; "3"; "8"].
Proof. reflexivity. Qed.
Example Split_ex2 : Split "" "." = [""].
Proof. reflexivity. Qed.
Example Split_ex3 : Split "all" "." = ["all"].
Proof. reflexivity. Qed.
Example Split_ex4 : Split "5..2." "." = ["5"; ""; "2"; ""].
Proof. reflexivity. Qed.
Example Atoi_ex1 : Atoi "40" = 40%Z /\ Atoi "" = 0%Z /\ Atoi "x1" = 0%Z
                   /\ Atoi "-7" = (-7)%Z /\ Atoi "+" = 0%Z /\ Atoi "007" = 7%Z.
Proof. repeat split; reflexivity. Qed.
Example Atoi_ex2 :
  Atoi "9223372036854775808" = int_max /\ Atoi "-9223372036854775809" = int_min.
Proof. split; vm_compute; reflexivity. Qed.
Example Atoi_ex3 :
  Atoi "99999999999999999999x" = int_max /\ Atoi "-99999999999999999999x" = int_min
  /\ Atoi "9999999999999999999x" = 0%Z /\ Atoi "18446744073709551616" = int_max
  /\ Atoi "12x" = 0%Z.
Proof. repeat split; vm_compute; reflexivity. Qed.
Example Itoa_ex : Itoa 0 = "0" /\ Itoa 39 = "39" /\ Itoa (-1) = "-1"
                  /\ Itoa 1000 = "1000".
Proof. repeat split; vm_compute; reflexivity. Qed.
Example lower_ascii_ex :
  lower_ascii "ERROR" = "error" /\ lower_ascii "Warning" = "warning".
Proof. split; reflexivity. Qed.
Example sortStrings_ex :
  sortStrings ["7.0"; "5.3"; "5.2"; "5.3"] = ["5.2"; "5.3"; "5.3"; "7.0"].
Proof. reflexivity. Qed.
Example TrimPrefix_ex :
  TrimPrefix "plugin/a.php" "plugin/" = "a.php" /\ TrimPrefix "b/y" "a/" = "b/y".
Proof. split; reflexivity. Qed.

Example Sum256_vectors :
  Sha256.hex (Sha256.Sum256 "")
  = "e3b0c44298fc1c149afbf4c8996fb92427ae41e4649b934ca495991b7852b855"
  /\ Sha256.hex (Sha256.Sum256 "abc")
     = "ba7816bf8f01cfea414140de5dae2223b00361a396177a9cb410ff61f20015ad"
  /\ Sha256.hex (Sha256.Sum256 "aaaaaaaaaaaaaaaaaaaaaaaaaaaaaaaaaaaaaaaaaaaaaaaaaaaaaaaaaaaaaaaa")
     = "ffe054fe7ae0cb6dc65c3af9b61d5209f439851db43d0ba5997337df154668eb".
Proof. vm_compute. auto. Qed.

Example URLEncoding_ex :
  map Base64.URLEncoding_EncodeToString ["a"; "ab"; "abc"] = ["YQ=="; "YWI="; "YWJj"].
Proof. vm_compute. reflexivity. Qed.

Example Clean_ex :
  map Filepath.Clean ["a/b/../c"; "/tmp/x/unzipped/../../etc"; "a//b/./c/"; "../../x";
                      "/../x"; ""; "a/.."; "a/../../b"]
  = ["a/c"; "/tmp/etc"; "a/b/c"; "../../x"; "/x"; "."; "."; "../b"].
Proof. vm_compute. reflexivity. Qed.

Example Join_ex :
  Filepath.Join ["/tmp/d/unzipped"; "inc/a.php"] = "/tmp/d/unzipped/inc/a.php"
  /\ Filepath.Join ["/tmp/d/unzipped"; ""] = "/tmp/d/unzipped"
  /\ Filepath.Join [""; "a/b"] = "a/b".
Proof. vm_compute. auto. Qed.

Example Marshal_ex :
  Json.Marshal None = "null" /\ Json.Marshal (Some []) = "[]"
  /\ Json.Marshal (Some ["ab"; "c<d"])
     = String "[" (String Json.quote ("ab" ++ String Json.quote
         ("," ++ String Json.quote ("c\u003cd" ++ String Json.quote "]")))).
Proof. vm_compute. auto. Qed.

End LibraryExamples.

(** * Package phpcompat *)

Import Phpcompat.

Section Previous.
Local Open Scope Z_scope.

Lemma eqb_false_of_Split (v w : string) :
  Split v "." <> Split w "." -> String.eqb v w = false.
Proof. intros H. apply String.eqb_neq. congruence. Qed.

(** Within a minor: for every [X.Y.Z] with [Z > 0], whatever [X] and [Y],
    the patch goes down by one and the catalogue is not consulted. *)
Lemma PreviousVersion_patch (X Y : string) (z : Z) :
  has_byte X "." = false -> has_byte Y "." = false -> 0 < z < 2 ^ 63 ->
  PreviousVersion (X ++ "." ++ Y ++ "." ++ Itoa z)
  = Ret (X ++ "." ++ Y ++ "." ++ Itoa (z - 1)).
Proof.
  intros HX HY Hz.
  pose proof (Split_version X Y (Itoa z) HX HY (Itoa_no_dot z)) as Hsplit.
  unfold PreviousVersion.
  rewrite (eqb_false_of_Split _ "all") by (rewrite Hsplit; discriminate).
  rewrite (eqb_false_of_Split _ "5.2") by (rewrite Hsplit; discriminate).
  rewrite (eqb_false_of_Split _ "5.2.0").
  2:{ rewrite Hsplit. intros E. injection E as _ _ E.
      apply (Itoa_inj z 0) in E. lia. }
  rewrite Hsplit. cbn [orb List.length Nat.ltb Nat.leb at_index nth_error].
  unfold_bind.
  assert (Atoi (Itoa z) = z) as Hat by (apply Atoi_Itoa; lia).
  assert (wrap (z - 1) = z - 1) as Hw by (apply wrap_id; unfold int_min, int_max; lia).
  destruct (String.eqb Y "0"); cbn [at_index nth_error]; rewrite Hat, Hw;
    (destruct (Z.ltb_spec (z - 1) 0); [lia|reflexivity]).
Qed.

Lemma minor_string_inj (x y a b : Z) :
  minor_string x y = minor_string a b -> x = a /\ y = b.
Proof.
  unfold minor_string. intros E. apply (f_equal (fun s => Split s ".")) in E.
  change (Itoa x ++ "." ++ Itoa y) with (Itoa x ++ String "." (Itoa y)) in E.
  change (Itoa a ++ "." ++ Itoa b) with (Itoa a ++ String "." (Itoa b)) in E.
  rewrite !Split_app, !Split_no_sep in E by apply Itoa_no_dot.
  injection E as Ex Ey. split; by apply Itoa_inj.
Qed.

Lemma PhpMajorVersions_catalogue :
  PhpMajorVersions = map (fun p => minor_string p.1 p.2) catalogue.
Proof. by vm_compute. Qed.

Lemma minor_in_catalogue (x y : Z) :
  In (minor_string x y) PhpMajorVersions <-> In (x, y) catalogue.
Proof.
  rewrite PhpMajorVersions_catalogue, in_map_iff. split.
  - intros ([a b] & E & Hin). apply minor_string_inj in E as [<- <-]. done.
  - intros Hin. by exists (x, y).
Qed.

(** C3: for the versions of the catalogue's minors, [PreviousVersion]
    returns [X.Y.(Z-1)] when [Z > 0] and, when [Z = 0] and [Y > 0], the
    highest patch [X.(Y-1).max] the catalogue has for [X.(Y-1)] (the floor
    [5.2.0] apart); [7.0.0] gives [5.6.40], and [5.2] and [5.2.0] give
    [5.2.0]. *)
Theorem PreviousVersion_catalogue (x y z : Z) :
  In (minor_string x y) PhpMajorVersions -> 0 <= z < 2 ^ 63 ->
  (0 < z -> PreviousVersion (version_string x y z) = Ret (version_string x y (z - 1)))
  /\ (z = 0 -> 0 < y -> (x, y) <> (5, 2) ->
        PreviousVersion (version_string x y 0)
        = Ret (versions_max (minor_string x (y - 1)))
        /\ In (minor_string x (y - 1)) PhpMajorVersions
        /\ exists p, 0 <= p
             /\ versions_max (minor_string x (y - 1)) = version_string x (y - 1) p)
  /\ PreviousVersion "7.0.0" = Ret "5.6.40"
  /\ PreviousVersion "5.2" = Ret "5.2.0"
  /\ PreviousVersion "5.2.0" = Ret "5.2.0".
Proof.
  intros Hin Hz. split; [|split; [|vm_compute; auto]].
  - intros Hpos. unfold version_string.
    apply (PreviousVersion_patch (Itoa x) (Itoa y) z); [apply Itoa_no_dot..|lia].
  - intros -> Hy Hne. apply (proj1 (minor_in_catalogue x y)) in Hin.
    assert (forall q, In q catalogue -> 0 < q.2 -> q <> (5, 2) ->
              PreviousVersion (version_string q.1 q.2 0)
              = Ret (versions_max (minor_string q.1 (q.2 - 1)))
              /\ In (minor_string q.1 (q.2 - 1)) PhpMajorVersions
              /\ 0 <= Atoi (nth 2 (Split (versions_max (minor_string q.1 (q.2 - 1))) ".") "")
              /\ versions_max (minor_string q.1 (q.2 - 1))
                 = version_string q.1 (q.2 - 1)
                     (Atoi (nth 2 (Split (versions_max (minor_string q.1 (q.2 - 1))) ".") "")))
      as Hall.
    { intros q Hq. unfold catalogue in Hq. cbn [In] in Hq.
      repeat (destruct Hq as [<-|Hq]); [..|destruct Hq]; cbn [fst snd]; intros Hq2 Hq52;
        try lia; try congruence;
        (split; [vm_compute; reflexivity|
         split; [apply (proj2 (minor_in_catalogue _ _)); vm_compute; tauto|
         split; [vm_compute; congruence|vm_compute; reflexivity]]]). }
    destruct (Hall (x, y) Hin Hy Hne) as (H1 & H2 & H3 & H4). cbn [fst snd] in *.
    split; [done|split; [done|]]. eexists. split; [exact H3|exact H4].
Qed.

(** The theorem at [5.4.12] and at [5.4.0]. *)
Lemma PreviousVersion_catalogue_witness :
  PreviousVersion (version_string 5 4 12) = Ret (version_string 5 4 (12 - 1))
  /\ PreviousVersion (version_string 5 4 0) = Ret (versions_max (minor_string 5 (4 - 1))).
Proof.
  assert (In (minor_string 5 4) PhpMajorVersions) as Hin
    by (apply (proj2 (minor_in_catalogue 5 4)); vm_compute; tauto).
  split.
  - exact (proj1 (PreviousVersion_catalogue 5 4 12 Hin ltac:(lia)) ltac:(lia)).
  - assert ((5, 4) <> (5, 2)) as Hne by congruence.
    exact (proj1 (proj1 (proj2 (PreviousVersion_catalogue 5 4 0 Hin ltac:(lia)))
                   eq_refl ltac:(lia) Hne)).
Defined.

Example PreviousVersion_examples :
  map PreviousVersion ["5.4.12"; "5.4.0"; "5.4"; "7.1.0"; "7.0"; "7.3.8"]
  = map Ret ["5.4.11"; "5.3.29"; "5.3.29"; "7.0.33"; "5.6.40"; "7.3.7"].
Proof. vm_compute. reflexivity. Qed.

(** C10: the sentinel [all] is returned as it is. *)
Theorem PreviousVersion_all : PreviousVersion "all" = Ret "all".
Proof. reflexivity. Qed.

(** C4: at [8.0.0] the table of boundaries has no entry, [maxPrev] has
    one element, and [maxPrev[2]] panics: no error value is made. *)
Theorem PreviousVersion_8_0_0_panics :
  PreviousVersion "8.0.0" = Panic index_out_of_range.
Proof. by vm_compute. Qed.

(** The same for every [X.0.0] but [7.0.0]. *)
Lemma PreviousVersion_boundary_panics (x : Z) :
  x <> 7 -> PreviousVersion (version_string x 0 0) = Panic index_out_of_range.
Proof.
  intros Hx. unfold version_string.
  assert (Itoa 0 = "0") as E0 by (by vm_compute). rewrite E0.
  pose proof (Split_version (Itoa x) "0" "0" (Itoa_no_dot x) eq_refl eq_refl) as Hsplit.
  unfold PreviousVersion.
  rewrite (eqb_false_of_Split _ "all") by (rewrite Hsplit; discriminate).
  rewrite (eqb_false_of_Split _ "5.2") by (rewrite Hsplit; discriminate).
  rewrite (eqb_false_of_Split _ "5.2.0") by (rewrite Hsplit; discriminate).
  rewrite Hsplit. cbn [orb List.length Nat.ltb Nat.leb at_index nth_error].
  unfold_bind. cbn [String.eqb Ascii.eqb Bool.eqb].
  assert (String.eqb (Itoa x ++ "." ++ "0") "7.0" = false) as ->.
  { apply String.eqb_neq. change "7.0" with (minor_string 7 0).
    rewrite <- E0. intros E. apply minor_string_inj in E as [? _]. done. }
  by vm_compute.
Qed.

End Previous.

Section SetOperations.

Lemma contains_In (slice : list string) (value : string) :
  contains slice value = true <-> In value slice.
Proof.
  induction slice as [|item rest IH]; cbn [contains In]; [done|].
  destruct (String.eqb_spec item value) as [->|Hne]; [tauto|].
  rewrite IH. split; [tauto|]. intros [?|?]; done.
Qed.

Lemma contains_not_In (slice : list string) (value : string) :
  contains slice value = false <-> ~ In value slice.
Proof. rewrite <- contains_In. by destruct (contains slice value). Qed.

Lemma merge_slice_spec (slice merged : list string) :
  NoDup merged ->
  NoDup (merge_slice merged slice)
  /\ forall v, In v (merge_slice merged slice) <-> In v merged \/ In v slice.
Proof.
  unfold merge_slice. revert merged.
  induction slice as [|value rest IH]; intros merged Hnd; cbn [fold_left In].
  - split; [done|]. tauto.
  - destruct (contains merged value) eqn:E; cbn [negb].
    + apply contains_In in E. destruct (IH merged Hnd) as [Hn Hin].
      split; [done|]. intros v. rewrite Hin. split; [tauto|].
      intros [?|[<-|?]]; tauto.
    + apply contains_not_In in E.
      assert (NoDup (merged ++ [value])) as Hnd'.
      { apply NoDup_app. split; [done|]. split; [|apply NoDup_singleton].
        intros x Hx Hx'. apply list_elem_of_In in Hx.
        apply list_elem_of_singleton in Hx'. by subst. }
      destruct (IH _ Hnd') as [Hn Hin]. split; [done|].
      intros v. rewrite Hin, in_app_iff. cbn [In]. tauto.
Qed.

Lemma MergeVersions_spec (n : list (list string)) :
  NoDup (MergeVersions n)
  /\ forall v, In v (MergeVersions n) <-> exists slice, In slice n /\ In v slice.
Proof.
  unfold MergeVersions.
  assert (forall merged, NoDup merged ->
            NoDup (fold_left merge_slice n merged)
            /\ forall v, In v (fold_left merge_slice n merged)
                         <-> In v merged \/ exists slice, In slice n /\ In v slice) as Hgen.
  { induction n as [|slice rest IH]; intros merged Hnd; cbn [fold_left].
    - split; [done|]. intros v. split; [tauto|]. intros [?|(? & [] & _)]. done.
    - destruct (merge_slice_spec slice merged Hnd) as [Hn Hin].
      destruct (IH _ Hn) as [Hn' Hin']. split; [done|].
      intros v. rewrite Hin', Hin. cbn [In]. split.
      + intros [[?|?]|(s & Hs & Hv)]; eauto 6.
      + intros [?|(s & [<-|Hs] & Hv)]; eauto 6. }
  destruct (Hgen [] NoDup_nil_2) as [Hn Hin]. split; [exact Hn|].
  intros v. rewrite (Hin v). cbn [In]. tauto.
Qed.

(** Inputs that share no value and repeat none are put one after the
    other, as they come. *)
Lemma merge_slice_fresh (slice merged : list string) :
  NoDup (merged ++ slice) -> merge_slice merged slice = (merged ++ slice)%list.
Proof.
  unfold merge_slice. revert merged.
  induction slice as [|value rest IH]; intros merged Hnd; cbn [fold_left].
  - by rewrite app_nil_r.
  - assert (contains merged value = false) as ->.
    { apply contains_not_In. intros Hin.
      apply NoDup_app in Hnd as (_ & Hdisj & _).
      apply (Hdisj value); [by apply list_elem_of_In|]. by left. }
    cbn [negb]. rewrite IH; rewrite <- app_assoc; done.
Qed.

Lemma MergeVersions_concat (n : list (list string)) :
  NoDup (concat n) -> MergeVersions n = concat n.
Proof.
  unfold MergeVersions.
  assert (forall merged, NoDup (merged ++ concat n) ->
            fold_left merge_slice n merged = (merged ++ concat n)%list) as Hgen.
  { induction n as [|slice rest IH]; intros merged Hnd; cbn [fold_left concat] in *.
    - by rewrite app_nil_r.
    - rewrite app_assoc in Hnd. rewrite merge_slice_fresh.
      + rewrite IH by done. by rewrite <- app_assoc.
      + by apply NoDup_app in Hnd as (? & _). }
  intros Hnd. by rewrite Hgen.
Qed.

Lemma merge_slice_app (merged a b : list string) :
  merge_slice merged (a ++ b) = merge_slice (merge_slice merged a) b.
Proof. unfold merge_slice. by rewrite fold_left_app. Qed.

Lemma fold_merge_concat (n : list (list string)) (merged : list string) :
  fold_left merge_slice n merged = merge_slice merged (concat n).
Proof.
  revert merged. induction n as [|slice rest IH]; intros merged; [done|].
  cbn [fold_left concat]. by rewrite IH, merge_slice_app.
Qed.

(** Merging appends only: what was merged before stays in front. *)
Lemma merge_slice_extends (slice merged : list string) :
  exists rest, merge_slice merged slice = (merged ++ rest)%list.
Proof.
  unfold merge_slice. revert merged.
  induction slice as [|value slice IH]; intros merged; cbn [fold_left].
  - exists []. by rewrite app_nil_r.
  - destruct (negb (contains merged value)); [|apply IH].
    destruct (IH (merged ++ [value])%list) as [rest ->].
    exists (value :: rest). by rewrite <- app_assoc.
Qed.

(** The place of a value in the merge is that of its first occurrence in
    the inputs, read one after the other: in front of it are the values
    met before that occurrence, and no other. *)
Lemma MergeVersions_first_met (n : list (list string)) (before after : list string)
    (v : string) :
  concat n = (before ++ v :: after)%list -> ~ In v before ->
  exists merged rest,
    MergeVersions n = (merged ++ v :: rest)%list
    /\ forall w, In w merged <-> In w before.
Proof.
  intros Hcat Hfresh. unfold MergeVersions. rewrite fold_merge_concat, Hcat.
  change (before ++ v :: after)%list with (before ++ [v] ++ after)%list.
  rewrite !merge_slice_app.
  destruct (merge_slice_spec before [] NoDup_nil_2) as [_ Hin].
  assert (merge_slice (merge_slice [] before) [v] = (merge_slice [] before ++ [v])%list)
    as ->.
  { unfold merge_slice at 1. cbn [fold_left].
    assert (contains (merge_slice [] before) v = false) as ->; [|done].
    apply contains_not_In. rewrite Hin. cbn [In]. tauto. }
  destruct (merge_slice_extends after (merge_slice [] before ++ [v])) as [rest ->].
  exists (merge_slice [] before), rest. rewrite <- app_assoc. split; [done|].
  intros w. rewrite Hin. cbn [In]. tauto.
Qed.

Lemma ExcludeVersions_spec (versions exclude : list string) :
  StronglySorted str_lt (ExcludeVersions versions exclude)
  /\ forall v, In v (ExcludeVersions versions exclude)
               <-> In v versions /\ ~ In v exclude.
Proof.
  unfold ExcludeVersions.
  set (step := fun (included : list string) (version : string) =>
         if negb (contains exclude version) && negb (contains included version)
         then (included ++ [version])%list else included).
  assert (forall included, NoDup included ->
            NoDup (fold_left step versions included)
            /\ forall v, In v (fold_left step versions included)
                         <-> In v included \/ (In v versions /\ ~ In v exclude)) as Hgen.
  { induction versions as [|version rest IH]; intros included Hnd; cbn [fold_left In].
    - split; [done|]. tauto.
    - unfold step at 2 4.
      destruct (contains exclude version) eqn:Ee; cbn [negb andb].
      + apply contains_In in Ee. destruct (IH _ Hnd) as [Hn Hin]. split; [done|].
        intros v. rewrite Hin. split; [tauto|]. intros [?|[[<-|?] ?]]; tauto.
      + apply contains_not_In in Ee.
        destruct (contains included version) eqn:Ei; cbn [negb].
        * apply contains_In in Ei. destruct (IH _ Hnd) as [Hn Hin]. split; [done|].
          intros v. rewrite Hin. split; [tauto|]. intros [?|[[<-|?] ?]]; tauto.
        * apply contains_not_In in Ei.
          assert (NoDup (included ++ [version])) as Hnd'.
          { apply NoDup_app. split; [done|]. split; [|apply NoDup_singleton].
            intros x Hx Hx'. apply list_elem_of_In in Hx.
            apply list_elem_of_singleton in Hx'. by subst. }
          destruct (IH _ Hnd') as [Hn Hin]. split; [done|].
          intros v. rewrite Hin, in_app_iff. cbn [In]. split.
          -- intros [[?|[<-|[]]]|?]; tauto.
          -- intros [?|[[<-|?] ?]]; tauto. }
  destruct (Hgen [] NoDup_nil_2) as [Hn Hin]. split.
  - by apply sortStrings_strict.
  - intros v. transitivity (In v (fold_left step versions [])).
    + split; apply Permutation_in; [symmetry|]; apply sortStrings_perm.
    + rewrite (Hin v). cbn [In]. tauto.
Qed.

(** C1, as the code has it: the output of [MergeVersions] holds each value
    of its inputs once, in the order in which the values are first met when
    the inputs are read one after the other (in front of a value are the
    values met before its first occurrence, and no other); the output of
    [ExcludeVersions] is strictly ascending (so without duplicates) and
    holds the values of [versions] that are not in [exclude]. *)
Theorem MergeVersions_ExcludeVersions_output (n : list (list string))
    (versions exclude : list string) :
  NoDup (MergeVersions n)
  /\ (forall v, In v (MergeVersions n) <-> exists slice, In slice n /\ In v slice)
  /\ (forall before v after,
        concat n = (before ++ v :: after)%list -> ~ In v before ->
        exists merged rest,
          MergeVersions n = (merged ++ v :: rest)%list
          /\ forall w, In w merged <-> In w before)
  /\ StronglySorted str_lt (ExcludeVersions versions exclude)
  /\ NoDup (ExcludeVersions versions exclude)
  /\ (forall v, In v (ExcludeVersions versions exclude)
                <-> In v versions /\ ~ In v exclude).
Proof.
  destruct (MergeVersions_spec n) as [Hn Hin].
  destruct (ExcludeVersions_spec versions exclude) as [Hs Hex].
  split; [exact Hn|]. split; [exact Hin|].
  split; [intros before v after; apply MergeVersions_first_met|].
  split; [exact Hs|].
  split; [by apply strict_sorted_NoDup|exact Hex].
Qed.

Example MergeVersions_ExcludeVersions_examples :
  MergeVersions [["5.2"; "5.3"]; ["5.3"; "5.4"]] = ["5.2"; "5.3"; "5.4"]
  /\ ExcludeVersions PhpMajorVersions ["5.2"; "5.3"]
     = ["5.4"; "5.5"; "5.6"; "7.0"; "7.1"; "7.2"; "7.3"]
  /\ MergeVersions [["5.3"]; ["5.2"]] = ["5.3"; "5.2"].
Proof. vm_compute. auto. Qed.

(** C1 fails as stated: two sorted lists without duplicates whose merge
    is not ascending. *)
Lemma MergeVersions_not_ascending :
  ~ StronglySorted str_lt (MergeVersions [["5.3"]; ["5.2"]]).
Proof.
  intros H. change (MergeVersions [["5.3"]; ["5.2"]]) with ["5.3"; "5.2"] in H.
  apply StronglySorted_cons in H as [H _].
  apply Forall_cons in H as [H _]. vm_compute in H. discriminate.
Qed.

End SetOperations.

Section Coverage.

Lemma fold_left_snoc (keys acc : list string) :
  fold_left (fun versions key => (versions ++ [key])%list) keys acc = (acc ++ keys)%list.
Proof.
  revert acc. induction keys as [|k rest IH]; intros acc; cbn [fold_left].
  - by rewrite app_nil_r.
  - by rewrite IH, <- app_assoc.
Qed.

(** The order in which [range] visits the catalogue does not show in
    [PhpMajorVersions]. *)
Lemma PhpMajorVersions_any_order (keys : list string) :
  Permutation keys (map fst (map_to_list phpVersions)) ->
  PhpMajorVersions_in keys = PhpMajorVersions.
Proof.
  intros Hp. unfold PhpMajorVersions, PhpMajorVersions_in.
  rewrite !fold_left_snoc. cbn [app]. by apply sortStrings_Permutation.
Qed.

Lemma PhpMajorVersions_sorted : StronglySorted str_lt PhpMajorVersions.
Proof.
  unfold PhpMajorVersions, PhpMajorVersions_in. rewrite fold_left_snoc. cbn [app].
  apply sortStrings_strict. apply NoDup_fst_map_to_list.
Qed.

Lemma In_MergeVersions_3 (a b c : list string) (v : string) :
  In v (MergeVersions [a; b; c]) <-> In v a \/ In v b \/ In v c.
Proof.
  rewrite (proj2 (MergeVersions_spec _)). cbn [In]. split.
  - intros (s & [<-|[<-|[<-|[]]]] & Hv); tauto.
  - intros [?|[?|?]]; eauto 7.
Qed.

Lemma In_MergeVersions_2 (a b : list string) (v : string) :
  In v (MergeVersions [a; b]) <-> In v a \/ In v b.
Proof.
  rewrite (proj2 (MergeVersions_spec _)). cbn [In]. split.
  - intros (s & [<-|[<-|[]]] & Hv); tauto.
  - intros [?|?]; eauto 7.
Qed.

(** C2, as the code has it: the merge of [breaks], [warns] and the
    compatible minors is a rearrangement of the catalogue's minors, each
    once; sorted, it is [PhpMajorVersions()]. *)
Theorem MergeVersions_covers_catalogue (breaks warns : list string) :
  (forall v, In v breaks -> In v PhpMajorVersions) ->
  (forall v, In v warns -> In v PhpMajorVersions) ->
  let compatible := ExcludeVersions PhpMajorVersions (MergeVersions [breaks; warns]) in
  Permutation (MergeVersions [breaks; warns; compatible]) PhpMajorVersions
  /\ NoDup (MergeVersions [breaks; warns; compatible])
  /\ sortStrings (MergeVersions [breaks; warns; compatible]) = PhpMajorVersions.
Proof.
  intros Hb Hw compatible.
  pose proof (proj1 (MergeVersions_spec [breaks; warns; compatible])) as Hnd.
  assert (Permutation (MergeVersions [breaks; warns; compatible]) PhpMajorVersions) as Hp.
  { apply NoDup_Permutation; [done|apply strict_sorted_NoDup, PhpMajorVersions_sorted|].
    intros v. rewrite !list_elem_of_In, In_MergeVersions_3. unfold compatible.
    rewrite (proj2 (ExcludeVersions_spec _ _)), In_MergeVersions_2. split.
    - intros [?|[?|[? _]]]; auto.
    - intros Hv. destruct (In_dec string_dec v breaks); [tauto|].
      destruct (In_dec string_dec v warns); tauto. }
  split; [done|]. split; [done|].
  apply sortStrings_unique; [done|].
  apply strict_sorted_le, PhpMajorVersions_sorted.
Qed.

(** The theorem at [breaks = ["5.3"]], [warns = ["5.2"]]. *)
Lemma MergeVersions_covers_catalogue_witness :
  let compatible := ExcludeVersions PhpMajorVersions (MergeVersions [["5.3"]; ["5.2"]]) in
  Permutation (MergeVersions [["5.3"]; ["5.2"]; compatible]) PhpMajorVersions
  /\ NoDup (MergeVersions [["5.3"]; ["5.2"]; compatible])
  /\ sortStrings (MergeVersions [["5.3"]; ["5.2"]; compatible]) = PhpMajorVersions.
Proof.
  apply (MergeVersions_covers_catalogue ["5.3"] ["5.2"]).
  - intros v [<-|[]]. vm_compute. tauto.
  - intros v [<-|[]]. vm_compute. tauto.
Defined.

(** C2 fails as stated: with [breaks = ["5.3"]] and no warning the merge
    starts with [5.3]. *)
Lemma MergeVersions_not_catalogue_order :
  MergeVersions
    [["5.3"]; []; ExcludeVersions PhpMajorVersions (MergeVersions [["5.3"]; []])]
  <> PhpMajorVersions.
Proof. vm_compute. discriminate. Qed.

End Coverage.

Section Exclusivity.
Context `{Semver} `{Unicode}.
Variable Parse : PhpcsFilesMessage -> Compatibility * option error.


Lemma type_not_both (message : PhpcsFilesMessage) :
  String.eqb (ToLower (msg_Type message)) "error" = true ->
  String.eqb (ToLower (msg_Type message)) "warning" = false.
Proof.
  intros E. apply String.eqb_eq in E. rewrite E. reflexivity.
Qed.


(** Whatever [Parse] and the library do, the two are never both slices. *)
Lemma Breaks_NonBreaking_never_both (message : PhpcsFilesMessage) :
  ~ (exists broken versions,
       BreaksVersions Parse message = Ret (Some broken)
       /\ NonBreakingVersions Parse message = Ret (Some versions)).
Proof.
  intros (broken & versions & Hbr & Hnb).
  unfold BreaksVersions, NonBreakingVersions, BreaksVersions_in, NonBreakingVersions_in in *.
  destruct (Parse message) as [compat err].
  destruct (bool_decide (err <> None)); cbn [orb] in *; [congruence|].
  destruct (String.eqb (ToLower (msg_Type message)) "error") eqn:E.
  - rewrite (type_not_both _ E) in Hnb. cbn [negb] in Hnb. congruence.
  - cbn [negb] in Hbr. congruence.
Qed.

End Exclusivity.

Section ExclusivityWitness.
Import PlainSemver.

Lemma plain_catalogue_parses : @catalogue_parses plain.
Proof.
  unfold catalogue_parses.
  assert (forallb (fun entry =>
            match @MustParse plain (item_get (snd entry) "max") with
            | Ret _ => true
            | Panic _ => false
            end) (map_to_list phpVersions) = true) as Hb by (vm_compute; reflexivity).
  rewrite forallb_forall in Hb. apply Forall_forall. intros entry Hin.
  apply list_elem_of_In, Hb in Hin. destruct (MustParse _); [eauto|discriminate].
Qed.



Example BreaksVersions_short_array :
  BreaksVersions Parse_5_4 (short_array "ERROR") = Ret (Some ["5.2"; "5.3"])
  /\ NonBreakingVersions Parse_5_4 (short_array "WARNING") = Ret (Some ["5.2"; "5.3"])
  /\ BreaksVersions Parse_5_4 (short_array "WARNING") = Ret None.
Proof. vm_compute. auto. Qed.

End ExclusivityWitness.

Section PreviousMore.
Local Open Scope Z_scope.

Lemma has_byte_app (a b : string) (sep : ascii) :
  has_byte (a ++ b) sep = has_byte a sep || has_byte b sep.
Proof.
  induction a as [|c a IH]; [done|].
  change (has_byte (String c (a ++ b)) sep
          = has_byte (String c a) sep || has_byte b sep).
  cbn [has_byte]. by rewrite IH, orb_assoc.
Qed.

Lemma Split_two (X Y : string) :
  has_byte X "." = false -> has_byte Y "." = false ->
  Split (X ++ "." ++ Y) "." = [X; Y].
Proof.
  intros HX HY. change (X ++ "." ++ Y) with (X ++ String "." Y).
  by rewrite Split_app, !Split_no_sep.
Qed.

(** X1: one patch down, whatever the major and the minor are. *)
Theorem PreviousVersion_lowers_patch (X Y : string) (z : Z) :
  has_byte X "." = false -> has_byte Y "." = false -> 0 < z < 2 ^ 63 ->
  PreviousVersion (X ++ "." ++ Y ++ "." ++ Itoa z)
  = Ret (X ++ "." ++ Y ++ "." ++ Itoa (z - 1)).
Proof. apply PreviousVersion_patch. Qed.

Lemma PreviousVersion_lowers_patch_witness :
  PreviousVersion ("9" ++ "." ++ "x" ++ "." ++ Itoa 3)
  = Ret ("9" ++ "." ++ "x" ++ "." ++ Itoa (3 - 1)).
Proof.
  apply (PreviousVersion_lowers_patch "9" "x" 3); [reflexivity|reflexivity|lia].
Defined.

(** X2: a version without a patch is read as patch 0. *)
Theorem PreviousVersion_default_patch (X Y : string) :
  has_byte X "." = false -> has_byte Y "." = false ->
  PreviousVersion (X ++ "." ++ Y) = PreviousVersion (X ++ "." ++ Y ++ "." ++ "0").
Proof.
  intros HX HY.
  pose proof (Split_two X Y HX HY) as H2.
  pose proof (Split_version X Y "0" HX HY eq_refl) as H3.
  unfold PreviousVersion.
  rewrite (eqb_false_of_Split (X ++ "." ++ Y) "all") by (rewrite H2; discriminate).
  rewrite (eqb_false_of_Split (X ++ "." ++ Y ++ "." ++ "0") "all")
    by (rewrite H3; discriminate).
  rewrite (eqb_false_of_Split (X ++ "." ++ Y) "5.2.0") by (rewrite H2; discriminate).
  rewrite (eqb_false_of_Split (X ++ "." ++ Y ++ "." ++ "0") "5.2")
    by (rewrite H3; discriminate).
  rewrite orb_false_r. cbn [orb].
  destruct (String.eqb_spec (X ++ "." ++ Y) "5.2") as [E|E];
    destruct (String.eqb_spec (X ++ "." ++ Y ++ "." ++ "0") "5.2.0") as [E'|E'].
  - reflexivity.
  - exfalso. apply E'. apply (f_equal (fun s => Split s ".")) in E.
    rewrite H2 in E. injection E as -> ->. reflexivity.
  - exfalso. apply E. apply (f_equal (fun s => Split s ".")) in E'.
    rewrite H3 in E'. injection E' as -> ->. reflexivity.
  - rewrite H2, H3. reflexivity.
Qed.

Lemma PreviousVersion_default_patch_witness :
  PreviousVersion ("5" ++ "." ++ "4") = PreviousVersion ("5" ++ "." ++ "4" ++ "." ++ "0").
Proof. apply (PreviousVersion_default_patch "5" "4"); reflexivity. Defined.

(** X3: a string without a dot, the sentinel [all] apart, has no third
    part to read. *)
Theorem PreviousVersion_one_part_panics (s : string) :
  has_byte s "." = false -> s <> "all" ->
  PreviousVersion s = Panic index_out_of_range.
Proof.
  intros Hs Hall. pose proof (Split_no_sep s "." Hs) as H1.
  unfold PreviousVersion.
  destruct (String.eqb_spec s "all"); [done|].
  rewrite (eqb_false_of_Split s "5.2") by (rewrite H1; discriminate).
  rewrite (eqb_false_of_Split s "5.2.0") by (rewrite H1; discriminate).
  rewrite H1. reflexivity.
Qed.

Lemma PreviousVersion_one_part_panics_witness :
  PreviousVersion "7" = Panic index_out_of_range
  /\ PreviousVersion "" = Panic index_out_of_range.
Proof.
  split.
  - apply (PreviousVersion_one_part_panics "7"); [reflexivity|discriminate].
  - apply (PreviousVersion_one_part_panics ""); [reflexivity|discriminate].
Defined.

(** The minors [PhpMajorVersions] lists are the keys of the catalogue. *)
Lemma In_PhpMajorVersions_lookup (k : string) :
  In k PhpMajorVersions <-> is_Some (phpVersions !! k).
Proof.
  unfold PhpMajorVersions, PhpMajorVersions_in. rewrite fold_left_snoc. cbn [app].
  generalize phpVersions. intros m.
  transitivity (In k (map fst (map_to_list m))).
  - split; apply Permutation_in; [symmetry|]; apply sortStrings_perm.
  - rewrite in_map_iff. split.
    + intros ([k' item] & <- & Hin). exists item.
      by apply elem_of_map_to_list, list_elem_of_In.
    + intros [item Hitem]. exists (k, item). split; [done|].
      by apply list_elem_of_In, elem_of_map_to_list.
Qed.

Lemma versions_max_missing (k : string) :
  ~ In k PhpMajorVersions -> versions_max k = "".
Proof.
  rewrite In_PhpMajorVersions_lookup. unfold versions_max.
  destruct (phpVersions !! k) as [item|]; [intros []; by exists item|done].
Qed.

(** X4: where the table has no predecessor the code reads the third part
    of an empty version: the start of a minor whose previous minor is not
    in the catalogue, and the start of every major but 7. *)
Theorem PreviousVersion_without_predecessor_panics (x y : Z) :
  (0 < y < 2 ^ 63 -> (x, y) <> (5, 2) ->
   ~ In (minor_string x (y - 1)) PhpMajorVersions ->
   PreviousVersion (version_string x y 0) = Panic index_out_of_range)
  /\ (y = 0 -> x <> 7 ->
      PreviousVersion (version_string x y 0) = Panic index_out_of_range).
Proof.
  split; [|intros -> Hx; by apply PreviousVersion_boundary_panics].
  intros Hy Hne Hmiss. unfold version_string.
  assert (Itoa 0 = "0") as E0 by (by vm_compute). rewrite E0.
  pose proof (Split_version (Itoa x) (Itoa y) "0" (Itoa_no_dot x) (Itoa_no_dot y) eq_refl)
    as Hsplit.
  unfold PreviousVersion.
  rewrite (eqb_false_of_Split _ "all") by (rewrite Hsplit; discriminate).
  rewrite (eqb_false_of_Split _ "5.2") by (rewrite Hsplit; discriminate).
  rewrite (eqb_false_of_Split _ "5.2.0").
  2:{ rewrite Hsplit. intros E. injection E as Ex Ey. apply Hne.
      change "5" with (Itoa 5) in Ex. change "2" with (Itoa 2) in Ey.
      apply Itoa_inj in Ex, Ey. congruence. }
  rewrite Hsplit. cbn [orb List.length Nat.ltb Nat.leb at_index nth_error].
  unfold_bind.
  assert (String.eqb (Itoa y) "0" = false) as ->.
  { apply String.eqb_neq. rewrite <- E0. intros E. apply Itoa_inj in E. lia. }
  rewrite Atoi_Itoa by lia.
  rewrite (wrap_id (y - 1)) by (unfold int_min, int_max; lia).
  change (Itoa x ++ "." ++ Itoa (y - 1)) with (minor_string x (y - 1)).
  rewrite (versions_max_missing _ Hmiss). reflexivity.
Qed.

Lemma PreviousVersion_without_predecessor_panics_witness :
  PreviousVersion (version_string 5 10 0) = Panic index_out_of_range
  /\ PreviousVersion (version_string 8 0 0) = Panic index_out_of_range.
Proof.
  split.
  - apply (proj1 (PreviousVersion_without_predecessor_panics 5 10)); [lia|congruence|].
    intros Hin. apply (proj1 (minor_in_catalogue 5 (10 - 1))) in Hin.
    vm_compute in Hin. repeat (destruct Hin as [Hin|Hin]; [discriminate|]). exact Hin.
  - apply (proj2 (PreviousVersion_without_predecessor_panics 8 0)); [reflexivity|lia].
Defined.

End PreviousMore.

Section Parts.
Local Open Scope Z_scope.

Lemma VersionParts_version_string (x y z : Z) :
  0 <= x < 2 ^ 63 -> 0 <= y < 2 ^ 63 -> 0 <= z < 2 ^ 63 ->
  VersionParts (version_string x y z) = Ret (x, y, z).
Proof.
  intros Hx Hy Hz. unfold VersionParts, version_string.
  pose proof (Split_version (Itoa x) (Itoa y) (Itoa z)
                (Itoa_no_dot x) (Itoa_no_dot y) (Itoa_no_dot z)) as Hsplit.
  rewrite (eqb_false_of_Split _ "all") by (rewrite Hsplit; discriminate).
  rewrite Hsplit. cbn [at_index nth_error]. unfold_bind.
  by rewrite !Atoi_Itoa.
Qed.

(** X5: [VersionParts] reads back the three numbers of a version. *)
Theorem VersionParts_reads_version (x y z : Z) :
  0 <= x < 2 ^ 63 -> 0 <= y < 2 ^ 63 -> 0 <= z < 2 ^ 63 ->
  VersionParts (version_string x y z) = Ret (x, y, z).
Proof. apply VersionParts_version_string. Qed.

Lemma VersionParts_reads_version_witness :
  VersionParts (version_string 7 3 8) = Ret (7, 3, 8).
Proof. apply (VersionParts_reads_version 7 3 8); lia. Defined.

(** X6: apart from the sentinel [all], [VersionParts] panics exactly on
    the strings with fewer than three parts; on the others it returns
    three numbers of the type [int], whatever the parts hold. *)
Theorem VersionParts_needs_three_parts (version : string) :
  version <> "all" ->
  (VersionParts version = Panic index_out_of_range
   <-> (List.length (Split version ".") < 3)%nat)
  /\ ((3 <= List.length (Split version "."))%nat ->
      exists major minor patch,
        VersionParts version = Ret (major, minor, patch)
        /\ int_min <= major <= int_max
        /\ int_min <= minor <= int_max
        /\ int_min <= patch <= int_max).
Proof.
  intros Hall. unfold VersionParts.
  destruct (String.eqb_spec version "all"); [done|].
  destruct (Split version ".") as [|p0 [|p1 [|p2 rest]]]; cbn [List.length].
  - split; [split; [lia|reflexivity]|lia].
  - split; [split; [lia|reflexivity]|lia].
  - split; [split; [lia|reflexivity]|lia].
  - split; [split; [discriminate|lia]|]. intros _.
    exists (Atoi p0), (Atoi p1), (Atoi p2).
    split; [reflexivity|]. split; [apply Atoi_range|].
    split; apply Atoi_range.
Qed.

Lemma VersionParts_needs_three_parts_witness :
  VersionParts "5.2" = Panic index_out_of_range
  /\ exists major minor patch,
       VersionParts "5.2.x.1" = Ret (major, minor, patch)
       /\ int_min <= major <= int_max
       /\ int_min <= minor <= int_max
       /\ int_min <= patch <= int_max.
Proof.
  assert ("5.2" <> "all") as H1 by discriminate.
  assert ("5.2.x.1" <> "all") as H2 by discriminate.
  split.
  - apply (proj2 (proj1 (VersionParts_needs_three_parts "5.2" H1))). cbn. lia.
  - apply (proj2 (VersionParts_needs_three_parts "5.2.x.1" H2)). cbn. lia.
Defined.

(** X7: the version [PreviousVersion] returns for a patch above 0 has the
    same major and minor and the patch one lower, as [VersionParts] reads
    them. *)
Theorem PreviousVersion_then_VersionParts (x y z : Z) :
  0 <= x < 2 ^ 63 -> 0 <= y < 2 ^ 63 -> 0 < z < 2 ^ 63 ->
  PreviousVersion (version_string x y z) ≫= VersionParts = Ret (x, y, z - 1).
Proof.
  intros Hx Hy Hz. unfold version_string.
  rewrite PreviousVersion_patch by (apply Itoa_no_dot || lia).
  unfold_bind. apply VersionParts_version_string; lia.
Qed.

Lemma PreviousVersion_then_VersionParts_witness :
  PreviousVersion (version_string 7 3 8) ≫= VersionParts = Ret (7, 3, 8 - 1).
Proof. apply (PreviousVersion_then_VersionParts 7 3 8); lia. Defined.

End Parts.

Section GetParts.
Context `{SemverOrder}.

Lemma dotted_not_all (X Y : string) : String.eqb (X ++ "." ++ Y) "all" = false.
Proof.
  apply String.eqb_neq. intros E. apply (f_equal (fun s => has_byte s ".")) in E.
  change (X ++ "." ++ Y) with (X ++ String "." Y) in E.
  rewrite has_byte_app in E. cbn [has_byte] in E.
  rewrite Ascii.eqb_refl in E. cbn [orb] in E. rewrite orb_true_r in E. discriminate.
Qed.

(** X8: a version without a dot, such as the sentinel [all], has the minor
    [all], is its own upper bound and is never moved to 5.2, whatever the
    library says of it. *)
Theorem GetVersionParts_without_dot (version lowIn : string) :
  has_byte version "." = false ->
  exists low,
    GetVersionParts version lowIn = (low, version, "all", version)
    /\ (lowIn = "" -> low = "all")
    /\ (lowIn <> "" -> low = lowIn \/ low = lowIn ++ ".0").
Proof.
  intros Hv. unfold GetVersionParts. rewrite (Split_no_sep version "." Hv).
  cbn [List.length Nat.eqb negb andb String.eqb]. rewrite andb_false_r.
  destruct (String.eqb_spec lowIn "") as [->|Hne].
  - eexists. split; [reflexivity|]. split; [done|]. done.
  - destruct (List.length (Split lowIn ".") =? 2)%nat;
      (eexists; split; [reflexivity|]; split; [done|]; intros _; auto).
Qed.


(** X9: a version with a dot has its first two parts as minor. When the
    library puts that minor below 5.2.0 all of the range is moved to 5.2.0
    and the lower bound asked for is dropped; otherwise, with no lower bound
    asked for, the range starts at patch 0 and ends at the version itself
    when it has three parts, at the highest patch of the catalogue if not.
    The version reported is always the one given. *)
Theorem GetVersionParts_with_dot (version lowIn X Y : string) (rest : list string) :
  Split version "." = X :: Y :: rest ->
  let minor := X ++ "." ++ Y in
  (LT (Make (minor ++ ".0")) (Make "5.2.0") = true ->
   GetVersionParts version lowIn = ("5.2.0", "5.2.0", "5.2", version))
  /\ (LT (Make (minor ++ ".0")) (Make "5.2.0") = false ->
      GetVersionParts version ""
      = (minor ++ "." ++ "0",
         (if (List.length rest =? 1)%nat then version else versions_max minor),
         minor, version)).
Proof.
  intros Hsplit minor. subst minor. unfold GetVersionParts. rewrite Hsplit.
  cbv beta iota zeta. rewrite !dotted_not_all.
  cbn [List.length Nat.eqb negb andb String.eqb]. split; intros ->; cbn [andb].
  - reflexivity.
  - destruct rest as [|p2 [|p3 rest]]; reflexivity.
Qed.

End GetParts.

Section GetPartsWitness.
Import PlainSemver.

Lemma GetVersionParts_without_dot_witness :
  exists low,
    GetVersionParts "all" "" = (low, "all", "all", "all")
    /\ ("" = "" -> low = "all")
    /\ ("" <> "" -> low = "" \/ low = "" ++ ".0").
Proof. exact (GetVersionParts_without_dot "all" "" eq_refl). Defined.

Lemma GetVersionParts_with_dot_witness :
  GetVersionParts "5.1.3" "5.0" = ("5.2.0", "5.2.0", "5.2", "5.1.3")
  /\ GetVersionParts "7.0" "" = ("7.0.0", "7.0.33", "7.0", "7.0").
Proof.
  split.
  - exact (proj1 (GetVersionParts_with_dot "5.1.3" "5.0" "5" "1" ["3"] eq_refl) eq_refl).
  - exact (proj2 (GetVersionParts_with_dot "7.0" "" "7" "0" [] eq_refl) eq_refl).
Defined.

End GetPartsWitness.

Section CatalogueKeys.

(** X10: [PhpMajorVersions] is the same list whatever order [range] visits
    the map in: strictly ascending, and holding exactly the keys of the
    catalogue. *)
Theorem PhpMajorVersions_sorted_keys :
  (forall keys, Permutation keys (map fst (map_to_list phpVersions)) ->
     PhpMajorVersions_in keys = PhpMajorVersions)
  /\ StronglySorted str_lt PhpMajorVersions
  /\ (forall k, In k PhpMajorVersions <-> is_Some (phpVersions !! k)).
Proof.
  split; [apply PhpMajorVersions_any_order|].
  split; [apply PhpMajorVersions_sorted|apply In_PhpMajorVersions_lookup].
Qed.

Lemma PhpMajorVersions_sorted_keys_witness :
  PhpMajorVersions_in (rev (map fst (map_to_list phpVersions))) = PhpMajorVersions.
Proof.
  apply (proj1 PhpMajorVersions_sorted_keys). symmetry. apply Permutation_rev.
Defined.

End CatalogueKeys.

Section SetAlgebra.

(** X11: merging slices is merging their concatenation; slices that share
    and repeat no value are put one after the other; and merging a merge
    changes nothing. *)
Theorem MergeVersions_flattens (n : list (list string)) :
  MergeVersions n = MergeVersions [concat n]
  /\ (NoDup (concat n) -> MergeVersions n = concat n)
  /\ MergeVersions [MergeVersions n] = MergeVersions n.
Proof.
  split; [|split].
  - unfold MergeVersions. rewrite !fold_merge_concat. cbn [concat]. by rewrite app_nil_r.
  - apply MergeVersions_concat.
  - rewrite (MergeVersions_concat [MergeVersions n]).
    + cbn [concat]. apply app_nil_r.
    + cbn [concat]. rewrite app_nil_r. apply MergeVersions_spec.
Qed.

Lemma MergeVersions_flattens_witness :
  MergeVersions [["5.3"; "5.4"]; ["5.2"]] = concat [["5.3"; "5.4"]; ["5.2"]].
Proof.
  apply (proj1 (proj2 (MergeVersions_flattens [["5.3"; "5.4"]; ["5.2"]]))).
  apply (bool_decide_unpack _). by vm_compute.
Defined.

(** X12: [ExcludeVersions] depends on its two arguments as sets only; and
    excluding nothing from a strictly ascending list gives the list back. *)
Theorem ExcludeVersions_on_sets (versions versions' exclude exclude' : list string) :
  ((forall v, In v versions <-> In v versions') ->
   (forall v, In v exclude <-> In v exclude') ->
   ExcludeVersions versions exclude = ExcludeVersions versions' exclude')
  /\ (StronglySorted str_lt versions -> ExcludeVersions versions [] = versions).
Proof.
  destruct (ExcludeVersions_spec versions exclude) as [Hs Hin].
  split.
  - intros Hv He.
    destruct (ExcludeVersions_spec versions' exclude') as [Hs' Hin'].
    apply (StronglySorted_unique str_le); try by apply strict_sorted_le.
    apply NoDup_Permutation; try by apply strict_sorted_NoDup.
    intros v. rewrite !list_elem_of_In, Hin, Hin', Hv, He. done.
  - intros Hsorted.
    destruct (ExcludeVersions_spec versions []) as [Hs0 Hin0].
    apply (StronglySorted_unique str_le); try by apply strict_sorted_le.
    apply NoDup_Permutation; try by apply strict_sorted_NoDup.
    intros v. rewrite !list_elem_of_In, Hin0. cbn [In]. tauto.
Qed.

Lemma ExcludeVersions_on_sets_witness :
  ExcludeVersions ["5.3"; "5.2"; "5.3"] ["7.0"; "7.0"] = ExcludeVersions ["5.2"; "5.3"] ["7.0"]
  /\ ExcludeVersions ["5.2"; "5.3"] [] = ["5.2"; "5.3"].
Proof.
  split.
  - apply (proj1 (ExcludeVersions_on_sets ["5.3"; "5.2"; "5.3"] ["5.2"; "5.3"]
                    ["7.0"; "7.0"] ["7.0"])); intros v; cbn [In]; tauto.
  - apply (proj2 (ExcludeVersions_on_sets ["5.2"; "5.3"] ["5.2"; "5.3"] [] [])).
    repeat constructor.
Defined.

(** X13: the compatible minors are the minors of the catalogue that are
    neither broken nor warned about: the three lists share nothing with the
    compatible ones. *)
Theorem compatible_is_complement (breaks warns : list string) (v : string) :
  In v (ExcludeVersions PhpMajorVersions (MergeVersions [breaks; warns]))
  <-> In v PhpMajorVersions /\ ~ In v breaks /\ ~ In v warns.
Proof.
  rewrite (proj2 (ExcludeVersions_spec _ _)), In_MergeVersions_2. tauto.
Qed.

End SetAlgebra.

Section AffectedMinors.
Context `{Semver} `{Unicode}.
Variable Parse : PhpcsFilesMessage -> Compatibility * option error.

Lemma versions_in_range_filter (order : list (string * gmap string string))
    (inside : Version -> bool) :
  Forall parses order ->
  versions_in_range order (Some inside)
  = Ret (map fst (List.filter (accepted inside) order)).
Proof.
  unfold versions_in_range. intros Hall.
  set (step := fun (acc : outcome (list string)) (entry : string * gmap string string) =>
         versions ← acc;
         v ← MustParse (item_get (snd entry) "max");
         if inside v then Ret (versions ++ [fst entry])%list else Ret versions).
  assert (forall start,
            fold_left step order (Ret start)
            = Ret (start ++ map fst (List.filter (accepted inside) order))%list) as Hgen.
  { induction Hall as [|entry rest [v Hv] _ IH]; intros start; cbn [fold_left List.filter map].
    - by rewrite app_nil_r.
    - unfold step at 2, accepted at 1. unfold_bind. rewrite Hv.
      destruct (inside v); rewrite IH; [|done].
      cbn [map]. by rewrite <- app_assoc. }
  exact (Hgen []).
Qed.

Lemma versions_in_range_nil_function (order : list (string * gmap string string)) :
  order <> [] -> Forall parses order ->
  versions_in_range order None = Panic nil_dereference.
Proof.
  unfold versions_in_range. intros Hne Hall.
  destruct Hall as [|entry rest [v Hv] _]; [done|].
  cbn [fold_left]. unfold_bind. rewrite Hv.
  clear. induction rest as [|e rest IH]; [done|]. cbn [fold_left]. exact IH.
Qed.

Lemma catalogue_not_empty : map_to_list phpVersions <> [].
Proof.
  intros E. apply (f_equal (@List.length _)) in E. vm_compute in E. discriminate.
Qed.

Lemma affected_minors (inside : Version -> bool) :
  catalogue_parses ->
  StronglySorted str_lt
    (sortStrings (map fst (List.filter (accepted inside) (map_to_list phpVersions))))
  /\ forall k,
       In k (sortStrings (map fst (List.filter (accepted inside) (map_to_list phpVersions))))
       <-> exists item v, phpVersions !! k = Some item
                          /\ MustParse (item_get item "max") = Ret v /\ inside v = true.
Proof.
  intros Hcat. generalize phpVersions Hcat. clear Hcat.
  unfold catalogue_parses. intros m Hcat. split.
  - apply sortStrings_strict.
    pose proof (NoDup_fst_map_to_list m) as Hnd. revert Hnd.
    generalize (map_to_list m). intros l. induction l as [|e l IH]; [constructor|].
    cbn [map List.filter fmap list_fmap]. intros Hnd. apply NoDup_cons in Hnd as [He Hnd].
    destruct (accepted inside e); [|by apply IH].
    cbn [map]. apply NoDup_cons. split; [|by apply IH].
    intros Hin. apply He. apply list_elem_of_In in Hin. apply list_elem_of_In.
    apply in_map_iff in Hin as (e' & Ee & Hin). apply filter_In in Hin as [Hin _].
    apply in_map_iff. by exists e'.
  - intros k.
    transitivity (In k (map fst (List.filter (accepted inside) (map_to_list m)))).
    { split; apply Permutation_in; [symmetry|]; apply sortStrings_perm. }
    rewrite in_map_iff. split.
    + intros ([k' item] & <- & Hin). apply filter_In in Hin as [Hin Hacc].
      apply list_elem_of_In, elem_of_map_to_list in Hin.
      unfold accepted in Hacc. cbn [fst snd] in *.
      destruct (MustParse (item_get item "max")) as [v|] eqn:Hv; [|discriminate].
      by exists item, v.
    + intros (item & v & Hitem & Hv & Hin). exists (k, item). split; [done|].
      apply filter_In. split.
      * by apply list_elem_of_In, elem_of_map_to_list.
      * unfold accepted. cbn [snd]. by rewrite Hv.
Qed.

(** X14: for a recognised message whose range parses, the slice returned
    is strictly ascending and holds exactly the minors of the catalogue
    whose highest patch the range accepts: [BreaksVersions] for an [error]
    and [NonBreakingVersions] for a [warning]. *)
Theorem BreaksVersions_affected_minors (message : PhpcsFilesMessage)
    (compat : Compatibility) (rng : CompatibilityRange) (inside : Version -> bool) :
  catalogue_parses ->
  Parse message = (compat, None) ->
  ParseRange (range_string rng) = Some inside ->
  let affected broken :=
    StronglySorted str_lt broken
    /\ forall k, In k broken
                 <-> exists item v, phpVersions !! k = Some item
                                    /\ MustParse (item_get item "max") = Ret v
                                    /\ inside v = true in
  (ToLower (msg_Type message) = "error" -> Breaks compat = Some rng ->
   exists broken, BreaksVersions Parse message = Ret (Some broken) /\ affected broken)
  /\ (ToLower (msg_Type message) = "warning" -> Warns compat = Some rng ->
      exists versions,
        NonBreakingVersions Parse message = Ret (Some versions) /\ affected versions).
Proof.
  intros Hcat HParse Hrange affected.
  unfold BreaksVersions, NonBreakingVersions, BreaksVersions_in, NonBreakingVersions_in.
  rewrite HParse. rewrite bool_decide_eq_false_2 by (intros E; by apply E).
  cbn [orb]. split; intros -> ->; cbn [String.eqb Ascii.eqb Bool.eqb negb];
    rewrite Hrange, (versions_in_range_filter _ inside Hcat); unfold_bind;
    (eexists; split; [reflexivity|by apply affected_minors]).
Qed.

(** X15: the order in which [range] visits the catalogue does not show in
    what [BreaksVersions] and [NonBreakingVersions] return, a panic
    included. *)
Theorem BreaksVersions_any_order (order : list (string * gmap string string))
    (message : PhpcsFilesMessage) :
  catalogue_parses ->
  Permutation order (map_to_list phpVersions) ->
  BreaksVersions_in Parse order message = BreaksVersions Parse message
  /\ NonBreakingVersions_in Parse order message = NonBreakingVersions Parse message.
Proof.
  intros Hcat Hperm.
  assert (Forall parses order) as Hall.
  { apply Forall_forall. intros e He. unfold catalogue_parses in Hcat.
    rewrite Forall_forall in Hcat. apply Hcat.
    apply list_elem_of_In. apply list_elem_of_In in He.
    exact (Permutation_in _ Hperm He). }
  assert (order <> []) as Hne.
  { intros ->. apply Permutation_nil in Hperm. exact (catalogue_not_empty Hperm). }
  assert (forall failRange,
            (l ← versions_in_range order failRange; Ret (Some (sortStrings l)))
            = (l ← versions_in_range (map_to_list phpVersions) failRange;
               Ret (Some (sortStrings l))))
    as Hloop.
  { intros [inside|].
    - rewrite (versions_in_range_filter order inside Hall).
      rewrite (versions_in_range_filter _ inside Hcat). unfold_bind. do 2 f_equal.
      apply sortStrings_Permutation, Permutation_map.
      clear -Hperm. induction Hperm; cbn [List.filter].
      + done.
      + destruct (accepted inside x); [by constructor|done].
      + destruct (accepted inside x), (accepted inside y);
          try done; apply perm_swap.
      + by etransitivity.
    - rewrite (versions_in_range_nil_function order Hne Hall).
      rewrite (versions_in_range_nil_function _ catalogue_not_empty Hcat).
      reflexivity. }
  unfold BreaksVersions, NonBreakingVersions, BreaksVersions_in, NonBreakingVersions_in.
  destruct (Parse message) as [compat err].
  split.
  - destruct (_ || _); [reflexivity|].
    destruct (Breaks compat) as [rng|]; [|reflexivity].
    cbv zeta. exact (Hloop (ParseRange (range_string rng))).
  - destruct (_ || _); [reflexivity|].
    destruct (Warns compat) as [rng|]; [|reflexivity].
    cbv zeta. exact (Hloop (ParseRange (range_string rng))).
Qed.

(** X16: a message contributes nothing when [Parse] reports an error or
    when its type is neither [error] nor [warning]: both functions return
    nil, whatever the ranges hold, and neither panics. *)
Theorem unrecognised_message_gives_nil (message : PhpcsFilesMessage) :
  ((exists err, snd (Parse message) = Some err)
   \/ (ToLower (msg_Type message) <> "error" /\ ToLower (msg_Type message) <> "warning")) ->
  BreaksVersions Parse message = Ret None
  /\ NonBreakingVersions Parse message = Ret None.
Proof.
  unfold BreaksVersions, NonBreakingVersions, BreaksVersions_in, NonBreakingVersions_in.
  destruct (Parse message) as [compat err]. intros [[e He]|[He Hw]].
  - cbn [snd] in He. subst err.
    rewrite bool_decide_eq_true_2 by done. by cbn [orb].
  - destruct (String.eqb_spec (ToLower (msg_Type message)) "error"); [done|].
    destruct (String.eqb_spec (ToLower (msg_Type message)) "warning"); [done|].
    cbn [negb]. by rewrite !orb_true_r.
Qed.

(** X17: for a recognised [error] whose range is nil, or has bounds that
    make no range the library parses, [BreaksVersions] panics. *)
Theorem BreaksVersions_panics_without_range (message : PhpcsFilesMessage)
    (compat : Compatibility) :
  catalogue_parses ->
  Parse message = (compat, None) ->
  ToLower (msg_Type message) = "error" ->
  (Breaks compat = None
   \/ exists rng, Breaks compat = Some rng /\ ParseRange (range_string rng) = None) ->
  BreaksVersions Parse message = Panic nil_dereference.
Proof.
  intros Hcat HParse Htype Hrange. unfold BreaksVersions, BreaksVersions_in.
  rewrite HParse, Htype. rewrite bool_decide_eq_false_2 by (intros E; by apply E).
  cbn [orb String.eqb Ascii.eqb Bool.eqb negb].
  destruct Hrange as [->|(rng & -> & ->)]; [done|].
  by rewrite (versions_in_range_nil_function _ catalogue_not_empty Hcat).
Qed.

End AffectedMinors.

Section AffectedMinorsWitness.
Import PlainSemver.

Lemma BreaksVersions_affected_minors_witness :
  exists broken,
    BreaksVersions Parse_5_4 (short_array "ERROR") = Ret (Some broken)
    /\ StronglySorted str_lt broken.
Proof.
  destruct (proj1 (@BreaksVersions_affected_minors plain ascii_only Parse_5_4 (short_array "ERROR")
                     {| Source := "PHPCompatibility.PHP.ShortArray.Found";
                        Breaks := Some window_5_4; Warns := None |}
                     window_5_4
                     (fun v : Z * Z * Z => leb3 (5, 2, 0)%Z v && leb3 v (5, 3, 29)%Z)
                     plain_catalogue_parses eq_refl eq_refl) eq_refl eq_refl)
    as (broken & Hrun & Hsorted & _).
  exists broken. split; [exact Hrun|exact Hsorted].
Defined.

Lemma BreaksVersions_any_order_witness :
  BreaksVersions_in Parse_5_4 (rev (map_to_list phpVersions)) (short_array "ERROR")
  = BreaksVersions Parse_5_4 (short_array "ERROR").
Proof.
  apply (proj1 (@BreaksVersions_any_order plain ascii_only Parse_5_4 (rev (map_to_list phpVersions))
                  (short_array "ERROR") plain_catalogue_parses
                  (Permutation_sym (Permutation_rev _)))).
Defined.

Lemma unrecognised_message_gives_nil_witness :
  BreaksVersions Parse_5_4 (short_array "NOTICE") = Ret None
  /\ NonBreakingVersions Parse_5_4 (short_array "NOTICE") = Ret None.
Proof.
  apply (@unrecognised_message_gives_nil plain ascii_only Parse_5_4 (short_array "NOTICE")).
  right. split; discriminate.
Defined.

Lemma BreaksVersions_panics_without_range_witness :
  BreaksVersions Parse_no_range (short_array "ERROR") = Panic nil_dereference.
Proof.
  apply (@BreaksVersions_panics_without_range plain ascii_only Parse_no_range (short_array "ERROR")
           {| Source := "PHPCompatibility.PHP.ShortArray.Found";
              Breaks := None; Warns := None |}
           plain_catalogue_parses eq_refl eq_refl).
  by left.
Defined.

End AffectedMinorsWitness.

(** * Package source/zip and the Ingest stage *)

Import Zip Process.

Section Checksum.

Lemma hex_length (bytes : string) :
  String.length (Sha256.hex bytes) = (2 * String.length bytes)%nat.
Proof. induction bytes as [|c r IH]; cbn [Sha256.hex String.length]; lia. Qed.

Lemma string_of_list_ascii_length (l : list ascii) :
  String.length (string_of_list_ascii l) = List.length l.
Proof. induction l as [|c r IH]; cbn; [done|]. by rewrite IH. Qed.

Lemma Sum256_length (data : string) : String.length (Sha256.Sum256 data) = 32%nat.
Proof.
  unfold Sha256.Sum256, Sha256.string_of_bytes.
  rewrite string_of_list_ascii_length, length_map. reflexivity.
Qed.

Lemma sha256_hex_length (data : string) : String.length (sha256_hex data) = 64%nat.
Proof. unfold sha256_hex. by rewrite hex_length, Sum256_length. Qed.

(** The checksum of a zip source is never the empty string. *)
Lemma combinedChecksum_nonempty (sums : option (list string)) :
  combinedChecksum sums <> "".
Proof.
  unfold combinedChecksum. intros E.
  apply (f_equal String.length) in E. by rewrite sha256_hex_length in E.
Qed.

(** C5, as the code has it: for a slice that is not nil the checksum is
    the hexadecimal SHA-256 of the compact JSON array of the sorted
    digests, whatever algorithm sorts them; for the nil slice it is that of
    [null]; and it is the same for every arrangement of the digests. *)
Theorem combinedChecksum_sorted_array (digests : list string) :
  combinedChecksum (Some digests) = checksum_of_sorted_array digests
  /\ (forall sorted, Permutation digests sorted -> StronglySorted str_le sorted ->
        combinedChecksum (Some digests) = sha256_hex (Json.encode_array sorted))
  /\ (forall digests', Permutation digests digests' ->
        combinedChecksum (Some digests) = combinedChecksum (Some digests'))
  /\ combinedChecksum None = sha256_hex "null".
Proof.
  split; [reflexivity|]. split; [|split; [|reflexivity]].
  - intros sorted Hp Hs. unfold combinedChecksum. cbn [fmap option_fmap option_map Json.Marshal].
    by rewrite (sortStrings_unique digests sorted).
  - intros digests' Hp. unfold combinedChecksum. cbn [fmap option_fmap option_map].
    by rewrite (sortStrings_Permutation digests digests').
Qed.

(** The theorem at the digests of [hello] and [world], in both orders. *)
Lemma combinedChecksum_sorted_array_witness :
  combinedChecksum (Some [sha256_hex "world"; sha256_hex "hello"])
  = combinedChecksum (Some [sha256_hex "hello"; sha256_hex "world"]).
Proof.
  apply (proj1 (proj2 (proj2
           (combinedChecksum_sorted_array [sha256_hex "world"; sha256_hex "hello"])))).
  apply perm_swap.
Defined.

Example combinedChecksum_hello_world :
  combinedChecksum (Some [sha256_hex "world"; sha256_hex "hello"])
  = "3f52c959fed5b9cf1b5f420fa7c95796ec928d60ef5af8708fe4a888c823480d".
Proof. vm_compute. reflexivity. Qed.

(** C5 fails as stated on the nil slice, the empty list of digests that
    [unzip] returns: [null] is hashed, not the empty array. *)
Lemma combinedChecksum_nil_not_array :
  combinedChecksum None <> checksum_of_sorted_array [].
Proof. vm_compute. discriminate. Qed.

End Checksum.

Section Validation.

Lemma eqb_empty (s : string) : String.eqb s "" = true <-> s = "".
Proof. apply String.eqb_eq. Qed.

(** C7, as the code has it: a message is rejected exactly when its title,
    its response endpoint, its source URL or its source type is empty; the
    slug and the audits are not looked at. A rejected message is answered
    on the error channel and is not forwarded. *)
Theorem validateMessage_rejects (msg : Message) :
  (validateMessage msg <> None
   <-> Title msg = "" \/ ResponseAPIEndpoint msg = "" \/ SourceURL msg = ""
       \/ SourceType msg = "")
  /\ (forall slug audits,
        validateMessage
          {| Title := Title msg; Slug := slug; SourceURL := SourceURL msg;
             SourceType := SourceType msg;
             ResponseAPIEndpoint := ResponseAPIEndpoint msg; Audits := audits |}
        = validateMessage msg)
  /\ (forall GetKind ProcessError env ig fs,
        Run_turn GetKind ProcessError env ig msg fs
        = match validateMessage msg with
          | Some err =>
              (Ret (OnErrc (errors_New ("Ingest Error: " ++ Error err))),
               with_Result ig ∅, fs)
          | None =>
              let '(err, ig', fs') :=
                Do GetKind ProcessError env (SetMessage (with_Result ig ∅) msg) fs in
              match err with
              | Panic why => (Panic why, ig', fs')
              | Ret (Some err) =>
                  (Ret (OnErrc (errors_New ("Ingest Error: " ++ Error err))), ig', fs')
              | Ret None => (Ret (OnOut ig'), ig', fs')
              end
          end).
Proof.
  split; [|split].
  - unfold validateMessage.
    destruct (String.eqb_spec (Title msg) ""); [split; [auto|done]|].
    destruct (String.eqb_spec (ResponseAPIEndpoint msg) ""); [split; [auto|done]|].
    destruct (String.eqb_spec (SourceURL msg) ""); [split; [auto|done]|].
    destruct (String.eqb_spec (SourceType msg) ""); [split; [auto|done]|].
    split; [done|]. intros [?|[?|[?|?]]]; done.
  - reflexivity.
  - intros GetKind ProcessError env ig fs. unfold Run_turn.
    destruct (validateMessage msg); [reflexivity|].
    destruct (Do _ _ _ _ _) as [[[[err|]|why] ig'] fs']; reflexivity.
Qed.

(** C7 fails as stated: a message with an empty slug and no audit is
    accepted. *)
Lemma validateMessage_accepts_empty_slug :
  let msg :=
    {| Title := "plugin"; Slug := ""; SourceURL := "https://example.com/plugin.zip";
       SourceType := "zip"; ResponseAPIEndpoint := "https://example.com/api";
       Audits := [] |} in
  Slug msg = "" /\ Audits msg = [] /\ validateMessage msg = None.
Proof. cbv zeta. repeat split. Qed.

End Validation.

Section Paths.
Import Filepath.

Lemma prefix_app (r s : string) : String.prefix r (r ++ s) = true.
Proof.
  induction r as [|c r IH]; [by destruct s|].
  simpl. destruct (ascii_dec c c); [exact IH|done].
Qed.

Lemma drop_app (r s : string) : drop (String.length r) (r ++ s) = s.
Proof. induction r as [|c r IH]; [by destruct s|]. simpl. exact IH. Qed.

Lemma TrimPrefix_app (r s : string) : TrimPrefix (r ++ s) r = s.
Proof. unfold TrimPrefix. by rewrite prefix_app, drop_app. Qed.


Lemma concat_cons (sep x : string) (l : list string) :
  l <> [] -> String.concat sep (x :: l) = x ++ sep ++ String.concat sep l.
Proof. by destruct l. Qed.

Lemma concat_Split (s : string) (sep : ascii) :
  String.concat (String sep "") (Split s sep) = s.
Proof.
  induction s as [|c r IH]; [done|]. cbn [Split].
  pose proof (Split_nonempty r sep) as Hne.
  destruct (Ascii.eqb_spec c sep) as [->|Hc].
  - rewrite concat_cons by done. by rewrite IH.
  - destruct (Split r sep) as [|h t]; [done|].
    destruct t as [|h' t]; simpl in *; by rewrite <- IH.
Qed.

Lemma string_app_assoc (a b c : string) : (a ++ b) ++ c = a ++ b ++ c.
Proof.
  induction a as [|x a IH]; [done|].
  change (String x ((a ++ b) ++ c) = String x (a ++ b ++ c)). by rewrite IH.
Qed.

Lemma concat_app_nonempty (sep : string) (a b : list string) :
  a <> [] -> b <> [] ->
  String.concat sep (a ++ b) = String.concat sep a ++ sep ++ String.concat sep b.
Proof.
  intros Ha Hb. induction a as [|x a IH]; [done|].
  destruct a as [|y a].
  - cbn [app]. by rewrite concat_cons.
  - cbn [app]. rewrite (concat_cons sep x (y :: a ++ b)) by done.
    cbn [app] in IH. rewrite IH by done.
    rewrite (concat_cons sep x (y :: a)) by done.
    by rewrite !string_app_assoc.
Qed.

Lemma clean_normal (is_rooted : bool) (l kept : list string) :
  forallb normal_elem l = true ->
  fold_left (clean_step is_rooted) l kept = (rev l ++ kept)%list.
Proof.
  revert kept. induction l as [|e l IH]; intros kept Hall; [done|].
  cbn [forallb] in Hall. apply andb_prop in Hall as [He Hl].
  cbn [fold_left rev]. rewrite <- app_assoc. cbn [app]. rewrite <- IH by done.
  f_equal. unfold clean_step, normal_elem in *.
  destruct (String.eqb e ""); [done|]. destruct (String.eqb e "."); [done|].
  by destruct (String.eqb e "..").
Qed.


End Paths.

Section RootPrefix.


Lemma length_zero_empty (s : string) : String.length s = 0%nat -> s = "".
Proof. by destruct s. Qed.


Variable env : Env.

Lemma extract_returns (destination rootPath : string) (entries : list File)
    (filenames checksums filenames' checksums' : option (list string))
    (fs fs' : FileSystem) :
  extract env destination rootPath entries filenames checksums fs
  = (Ret (filenames', checksums', None), fs') ->
  filenames' = append_all filenames
                 (map (target destination rootPath) (List.filter is_file entries))
  /\ checksums' = append_all checksums
                    (map (fun file => sha256_hex (Content file)) (List.filter is_file entries))
  /\ regular fs'
     = fold_left (fun disk file => <[target destination rootPath file := Content file]> disk)
         (List.filter is_file entries) (regular fs).
Proof.
  revert filenames checksums fs.
  induction entries as [|file rest IH]; intros filenames checksums fs; cbn [extract].
  - intros E. injection E as <- <- <-. done.
  - cbn [List.filter]. change (is_file file) with (negb (IsDir file)).
    destruct (IsDir file); cbn [negb].
    + intros E. apply IH in E as (H1 & H2 & H3).
      split; [exact H1|]. split; [exact H2|]. rewrite H3.
      by destruct (makeDirectoryAll_err env (target destination rootPath file)).
    + destruct (file_Open_err env (ToHash (Name file))); [discriminate|].
      destruct (ioCopy_err env (ToHash (Name file))); [discriminate|].
      destruct (openFile_err env (target destination rootPath file)); [discriminate|].
      destruct (file_Open_err env (ToFile (target destination rootPath file)));
        [discriminate|].
      destruct (ioCopy_err env (ToFile (target destination rootPath file)));
        [discriminate|].
      intros E. apply IH in E as (H1 & H2 & H3).
      split; [exact H1|]. split; [exact H2|]. rewrite H3.
      cbn [map write_file regular fold_left]. by rewrite insert_insert_eq.
Qed.



End RootPrefix.

Section RootPrefixWitness.


Example unzip_plugin_archive :
  (unzip (quiet plugin_archive) "/tmp/d/source.zip" "/tmp/d/unzipped" empty_disk).1
  = Ret (Some ["/tmp/d/unzipped/plugin.php"; "/tmp/d/unzipped/inc/a.php"],
         Some [sha256_hex "<?php // Plugin Name: Example"; sha256_hex "<?php"],
         None).
Proof. vm_compute. reflexivity. Qed.


End RootPrefixWitness.

Section ProjectChecksum.
Variable GetKind : string -> string.
Variable ProcessError : Ingest -> string -> error.
Variable env : Env.

Lemma extract_directories (destination rootPath : string) (entries : list File)
    (filenames checksums : option (list string)) (fs : FileSystem) :
  Forall (fun file => IsDir file = true) entries ->
  exists fs', extract env destination rootPath entries filenames checksums fs
              = (Ret (filenames, checksums, None), fs').
Proof.
  intros Hall. revert fs. induction Hall as [|file rest Hd _ IH]; intros fs; cbn [extract].
  - by exists fs.
  - rewrite Hd. apply IH.
Qed.

(** Every successful [PrepareFiles] leaves a checksum made by
    [combinedChecksum]. *)
Lemma PrepareFiles_checksum (m m' : Zip) (d : string) (fs fs' : FileSystem) :
  PrepareFiles env m d fs = (Ret None, m', fs') ->
  exists sums, checksum m' = combinedChecksum sums.
Proof.
  unfold PrepareFiles.
  destruct (downloadFile _ _ _ _) as [[err|] fs1]; [discriminate|].
  destruct (unzip _ _ _ _) as [[[[filenames checksums] [err|]]|why] fs2];
    [discriminate| |discriminate].
  intros E. injection E as <- _. by exists checksums.
Qed.

Lemma PrepareFiles_empty_manifest (u d body : string) (entries : list File)
    (fs : FileSystem) :
  createFile_err env (d ++ "/" ++ sourceFilename) = None ->
  http_Get env u = inr body ->
  ioCopy_err env (ToFile (d ++ "/" ++ sourceFilename)) = None ->
  zip_OpenReader env body = inr entries ->
  makeDirectoryAll_err env (d ++ "/unzipped") = None ->
  Forall (fun file => IsDir file = true) entries ->
  exists fs',
    PrepareFiles env (NewZip u) d fs
    = (Ret None,
       {| url := u; dest := d; files := None; checksum := sha256_hex "null" |}, fs').
Proof.
  intros Hc Hg Hi Hz Hm Hall. unfold PrepareFiles, downloadFile, unzip, NewZip.
  cbn [url files checksum]. rewrite Hc, Hg, Hi.
  cbn [write_file make_directory regular]. rewrite lookup_insert_eq. unfold default. cbn [from_option id].
  rewrite Hz, Hm.
  edestruct (extract_directories (d ++ "/unzipped") (rootPath_of entries) entries
               None None) as [fs' ->]; [exact Hall|].
  by exists fs'.
Qed.

(** C6, as the code has it. With the zip manager a prepared archive always
    has a checksum, and [Do] puts it, the files and the path in the result;
    an archive without regular files has the checksum of [null] and the nil
    manifest. The error [could not calculate project checksum] is for a
    source manager that reports the empty checksum: then the result map is
    left as it is. *)
Theorem Do_project_checksum (ig : Ingest) (fs : FileSystem) :
  (GetKind (SourceURL (Msg ig)) = "zip" ->
   forall m' fs',
     PrepareFiles env (NewZip (SourceURL (Msg ig))) (audit_path ig) fs = (Ret None, m', fs') ->
     checksum m' <> ""
     /\ exists ig',
          Do GetKind ProcessError env ig fs = (Ret None, ig', fs')
          /\ Result ig' !! "checksum" = Some (VString (checksum m'))
          /\ Result ig' !! "files" = Some (VStrings (files m'))
          /\ Result ig' !! "filesPath" = Some (VString (audit_path ig)))
  /\ (GetKind (SourceURL (Msg ig)) = "zip" ->
      forall body entries,
        createFile_err env (audit_path ig ++ "/" ++ sourceFilename) = None ->
        http_Get env (SourceURL (Msg ig)) = inr body ->
        ioCopy_err env (ToFile (audit_path ig ++ "/" ++ sourceFilename)) = None ->
        zip_OpenReader env body = inr entries ->
        makeDirectoryAll_err env (audit_path ig ++ "/unzipped") = None ->
        Forall (fun file => IsDir file = true) entries ->
        exists ig' fs',
          Do GetKind ProcessError env ig fs = (Ret None, ig', fs')
          /\ Result ig' !! "checksum" = Some (VString (sha256_hex "null"))
          /\ Result ig' !! "files" = Some (VStrings None)
          /\ Result ig' !! "filesPath" = Some (VString (audit_path ig)))
  /\ (forall (St : Type) (impl : Source St) (m m' : St) fs',
        GetKind (SourceURL (Msg ig)) <> "zip" ->
        sourceManager ig = Some (Manager m) ->
        source_PrepareFiles env m (audit_path ig) fs = (Ret None, m', fs') ->
        source_GetChecksum m' = "" ->
        exists ig',
          Do GetKind ProcessError env ig fs
          = (Ret (Some (ProcessError ig' "could not calculate project checksum")),
             ig', fs')
          /\ Result ig' = Result ig).
Proof.
  assert (GetKind (SourceURL (Msg ig)) = "zip" ->
          forall m' fs',
            PrepareFiles env (NewZip (SourceURL (Msg ig))) (audit_path ig) fs
            = (Ret None, m', fs') ->
            checksum m' <> ""
            /\ exists ig',
                 Do GetKind ProcessError env ig fs = (Ret None, ig', fs')
                 /\ Result ig' !! "checksum" = Some (VString (checksum m'))
                 /\ Result ig' !! "files" = Some (VStrings (files m'))
                 /\ Result ig' !! "filesPath" = Some (VString (audit_path ig)))
    as Hzip.
  { intros Hkind m' fs' Hprep.
    destruct (PrepareFiles_checksum _ _ _ _ _ Hprep) as [sums Hsums].
    assert (checksum m' <> "") as Hne
      by (rewrite Hsums; apply combinedChecksum_nonempty).
    split; [exact Hne|].
    unfold Do. rewrite Hkind. cbn [String.eqb Ascii.eqb Bool.eqb].
    cbn [with_sourceManager sourceManager SetFilesPath FilesPath source_PrepareFiles
         Zip_Source Msg TempFolder Result].
    change (audit_path _) with (audit_path ig). rewrite Hprep.
    cbn [source_GetChecksum source_GetFiles Zip_Source]. unfold GetChecksum, GetFiles.
    destruct (String.eqb_spec (checksum m') ""); [done|].
    eexists. split; [reflexivity|]. cbn [Result with_Result].
    split; [|split].
    + rewrite lookup_insert_ne, lookup_insert_ne, lookup_insert_eq; done.
    + rewrite lookup_insert_ne, lookup_insert_eq; done.
    + by rewrite lookup_insert_eq. }
  split; [exact Hzip|]. split.
  - intros Hkind body entries Hc Hg Hi Hz Hm Hall.
    destruct (PrepareFiles_empty_manifest (SourceURL (Msg ig)) (audit_path ig) body
                entries fs Hc Hg Hi Hz Hm Hall) as [fs' Hprep].
    destruct (Hzip Hkind _ _ Hprep) as (_ & ig' & HDo & H1 & H2 & H3).
    exists ig', fs'. auto.
  - intros St impl m m' fs' Hkind Hsm Hprep Hsum.
    unfold Do. destruct (String.eqb_spec (GetKind (SourceURL (Msg ig))) "zip"); [done|].
    rewrite Hsm. cbn [SetFilesPath FilesPath].
    rewrite Hprep, Hsum. cbn [String.eqb].
    eexists. split; [reflexivity|]. reflexivity.
Qed.

End ProjectChecksum.

Section ProjectChecksumWitness.

(** The theorem for an archive with nothing in it. *)
Lemma Do_project_checksum_witness :
  exists ig' fs',
    Do always_zip text_error (quiet []) (fresh_ingest plugin_message) empty_disk
    = (Ret None, ig', fs')
    /\ Result ig' !! "checksum" = Some (VString (sha256_hex "null"))
    /\ Result ig' !! "files" = Some (VStrings None)
    /\ Result ig' !! "filesPath"
       = Some (VString (audit_path (fresh_ingest plugin_message))).
Proof.
  exact (proj1 (proj2 (Do_project_checksum always_zip text_error (quiet [])
                         (fresh_ingest plugin_message) empty_disk))
           eq_refl "PK" [] eq_refl eq_refl eq_refl eq_refl eq_refl (List.Forall_nil _)).
Defined.

(** C6 fails as stated: the archive has no regular file, the manifest is
    nil, and [Do] returns no error and a result with a checksum. *)
Lemma Do_empty_manifest_succeeds :
  let run := Do always_zip text_error (quiet []) (fresh_ingest plugin_message) empty_disk in
  run.1.1 = Ret None
  /\ Result run.1.2 !! "files" = Some (VStrings None)
  /\ Result run.1.2 !! "checksum"
     = Some (VString "74234e98afe7498fb5daf1f36ac2d78acc339464f950703b8c019892f982b90b").
Proof. vm_compute. auto. Qed.

End ProjectChecksumWitness.

Section UnzipMore.
Variable env : Env.

Lemma extract_error (destination rootPath : string) (entries : list File)
    (filenames checksums filenames' checksums' : option (list string))
    (err : error) (fs fs' : FileSystem) :
  extract env destination rootPath entries filenames checksums fs
  = (Ret (filenames', checksums', Some err), fs') ->
  filenames' = None /\ checksums' = None.
Proof.
  revert filenames checksums fs.
  induction entries as [|file rest IH]; intros filenames checksums fs; cbn [extract].
  - discriminate.
  - destruct (IsDir file); [apply IH|].
    destruct (file_Open_err env (ToHash (Name file))); [discriminate|].
    destruct (ioCopy_err env (ToHash (Name file))); [intros E; by injection E as <- <- _ _|].
    destruct (openFile_err env (target destination rootPath file));
      [intros E; by injection E as <- <- _ _|].
    destruct (file_Open_err env (ToFile (target destination rootPath file)));
      [discriminate|].
    destruct (ioCopy_err env (ToFile (target destination rootPath file)));
      [intros E; by injection E as <- <- _ _|].
    apply IH.
Qed.



Lemma unzip_error_nil (source destination : string) (fs fs' : FileSystem)
    (filenames checksums : option (list string)) (err : error) :
  unzip env source destination fs = (Ret (filenames, checksums, Some err), fs') ->
  filenames = None /\ checksums = None.
Proof.
  unfold unzip.
  destruct (zip_OpenReader env _) as [e|entries]; [intros E; by injection E as <- <- _ _|].
  destruct (makeDirectoryAll_err env destination); [intros E; by injection E as <- <- _ _|].
  apply extract_error.
Qed.

(** X18: when [unzip] returns an error, the file names and the checksums
    it returns are nil, whatever was extracted before the error. *)
Theorem unzip_error_returns_nil (source destination : string) (fs fs' : FileSystem)
    (filenames checksums : option (list string)) (err : error) :
  unzip env source destination fs = (Ret (filenames, checksums, Some err), fs') ->
  filenames = None /\ checksums = None.
Proof.
  exact (unzip_error_nil source destination fs fs' filenames checksums err).
Qed.

Lemma extract_directories_grow (destination rootPath : string) (entries : list File)
    (filenames checksums : option (list string)) (fs : FileSystem) :
  directories fs ⊆ directories
    (extract env destination rootPath entries filenames checksums fs).2.
Proof.
  revert filenames checksums fs.
  induction entries as [|file rest IH]; intros filenames checksums fs; cbn [extract].
  - done.
  - destruct (IsDir file).
    + etransitivity; [|apply IH].
      destruct (makeDirectoryAll_err env _); cbn [make_directory directories];
        set_solver.
    + destruct (file_Open_err env (ToHash (Name file))); [done|].
      destruct (ioCopy_err env (ToHash (Name file))); [done|].
      destruct (openFile_err env (target destination rootPath file)); [done|].
      destruct (file_Open_err env (ToFile (target destination rootPath file))); [done|].
      destruct (ioCopy_err env (ToFile (target destination rootPath file))); [done|].
      etransitivity; [|apply IH]. done.
Qed.

Lemma extract_frame (destination rootPath : string) (entries : list File)
    (filenames checksums : option (list string)) (fs : FileSystem) (path : string) :
  (forall file, In file entries -> IsDir file = false ->
     target destination rootPath file <> path) ->
  regular (extract env destination rootPath entries filenames checksums fs).2 !! path
  = regular fs !! path.
Proof.
  revert filenames checksums fs.
  induction entries as [|file rest IH]; intros filenames checksums fs Hother;
    cbn [extract].
  - done.
  - assert (forall f, In f rest -> IsDir f = false ->
              target destination rootPath f <> path) as Hrest
      by (intros f Hf; apply Hother; by right).
    destruct (IsDir file) eqn:Hdir.
    + rewrite IH by done. by destruct (makeDirectoryAll_err env _).
    + assert (target destination rootPath file <> path) as Hne
        by (apply Hother; [by left|done]).
      destruct (file_Open_err env (ToHash (Name file))); [done|].
      destruct (ioCopy_err env (ToHash (Name file))); [done|].
      destruct (openFile_err env (target destination rootPath file)); [done|].
      destruct (file_Open_err env (ToFile (target destination rootPath file))).
      { cbn [snd write_file regular directories]. by rewrite lookup_insert_ne. }
      destruct (ioCopy_err env (ToFile (target destination rootPath file))).
      * cbn [snd write_file regular directories]. by rewrite lookup_insert_ne.
      * rewrite IH by done. cbn [write_file regular].
        by rewrite !lookup_insert_ne.
Qed.

(** X19: [unzip] changes no regular file other than the targets of the
    entries that are not directories, also when it stops at an error or
    panics; it
    removes no directory; and when the archive cannot be read the disk is
    left as it was. *)
Theorem unzip_touches_only_targets (source destination : string) (fs : FileSystem) :
  let fs' := (unzip env source destination fs).2 in
  directories fs ⊆ directories fs'
  /\ match zip_OpenReader env (default "" (regular fs !! source)) with
     | inl _ => fs' = fs
     | inr entries =>
         forall path,
           (forall file, In file entries -> IsDir file = false ->
              target destination (rootPath_of entries) file <> path) ->
           regular fs' !! path = regular fs !! path
     end.
Proof.
  cbv zeta. unfold unzip.
  destruct (zip_OpenReader env _) as [e|entries]; [done|].
  destruct (makeDirectoryAll_err env destination); [done|].
  split.
  - etransitivity; [|apply extract_directories_grow].
    cbn [make_directory directories]. set_solver.
  - intros path Hother. by rewrite (extract_frame _ _ _ _ _ _ path Hother).
Qed.

End UnzipMore.

Section ChecksumMore.

Lemma append_all_Some {A} (start l : list A) :
  append_all (Some start) l = Some (start ++ l)%list.
Proof.
  unfold append_all. revert start.
  induction l as [|x l IH]; intros start; cbn [fold_left].
  - by rewrite app_nil_r.
  - unfold append_slice at 2. cbn [default from_option id]. rewrite IH.
    by rewrite <- app_assoc.
Qed.

Lemma append_all_None {A} (l : list A) :
  append_all None l = match l with [] => None | _ => Some l end.
Proof.
  destruct l as [|x l]; [done|]. unfold append_all. cbn [fold_left].
  unfold append_slice at 2. cbn [default from_option id app].
  exact (append_all_Some [x] l).
Qed.

Lemma combinedChecksum_append_all (l l' : list string) :
  Permutation l l' ->
  combinedChecksum (append_all None l) = combinedChecksum (append_all None l').
Proof.
  intros Hp. rewrite !append_all_None.
  destruct l as [|x l].
  - apply Permutation_nil in Hp. by subst.
  - destruct l' as [|x' l']; [by apply Permutation_nil_r in Hp|].
    unfold combinedChecksum. cbn [fmap option_fmap option_map].
    by rewrite (sortStrings_Permutation _ _ Hp).
Qed.

(** X20: the checksum of an extraction depends on the contents of the
    regular files only: two archives whose regular files have the same
    contents, under any names and in any order, extract to the same
    checksum. *)
Theorem checksum_depends_on_contents (env1 env2 : Env)
    (source1 destination1 source2 destination2 : string) (fs1 fs2 fs1' fs2' : FileSystem)
    (entries1 entries2 : list File)
    (filenames1 checksums1 filenames2 checksums2 : option (list string)) :
  zip_OpenReader env1 (default "" (regular fs1 !! source1)) = inr entries1 ->
  zip_OpenReader env2 (default "" (regular fs2 !! source2)) = inr entries2 ->
  unzip env1 source1 destination1 fs1 = (Ret (filenames1, checksums1, None), fs1') ->
  unzip env2 source2 destination2 fs2 = (Ret (filenames2, checksums2, None), fs2') ->
  Permutation (map Content (List.filter is_file entries1))
              (map Content (List.filter is_file entries2)) ->
  combinedChecksum checksums1 = combinedChecksum checksums2.
Proof.
  intros Ho1 Ho2 Hu1 Hu2 Hp. unfold unzip in Hu1, Hu2. rewrite Ho1 in Hu1. rewrite Ho2 in Hu2.
  destruct (makeDirectoryAll_err env1 destination1); [discriminate|].
  destruct (makeDirectoryAll_err env2 destination2); [discriminate|].
  apply extract_returns in Hu1 as (_ & -> & _). apply extract_returns in Hu2 as (_ & -> & _).
  apply combinedChecksum_append_all.
  rewrite <- !(map_map Content sha256_hex). by apply Permutation_map.
Qed.

Lemma checksum_depends_on_contents_witness :
  exists filenames1 checksums1 fs1 filenames2 checksums2 fs2,
    unzip (quiet plugin_archive) "/tmp/a/source.zip" "/tmp/a/unzipped" empty_disk
    = (Ret (filenames1, checksums1, None), fs1)
    /\ unzip (quiet plugin_archive_flat) "/tmp/b/source.zip" "/tmp/b/unzipped" empty_disk
       = (Ret (filenames2, checksums2, None), fs2)
    /\ combinedChecksum checksums1 = combinedChecksum checksums2.
Proof.
  destruct (unzip (quiet plugin_archive) "/tmp/a/source.zip" "/tmp/a/unzipped" empty_disk)
    as [[[[fn1 cs1] err1]|why1] fs1] eqn:H1; [|vm_compute in H1; discriminate].
  destruct (unzip (quiet plugin_archive_flat) "/tmp/b/source.zip" "/tmp/b/unzipped"
              empty_disk) as [[[[fn2 cs2] err2]|why2] fs2] eqn:H2;
    [|vm_compute in H2; discriminate].
  assert (err1 = None) as -> by (vm_compute in H1; congruence).
  assert (err2 = None) as -> by (vm_compute in H2; congruence).
  exists fn1, cs1, fs1, fn2, cs2, fs2. split; [reflexivity|]. split; [reflexivity|].
  apply (checksum_depends_on_contents (quiet plugin_archive) (quiet plugin_archive_flat)
           _ _ _ _ _ _ _ _ plugin_archive plugin_archive_flat _ _ _ _
           eq_refl eq_refl H1 H2).
  apply perm_swap.
Defined.

Lemma hex_digit_is_hex (n : Z) : (0 <= n < 16)%Z -> is_hex (Sha256.hex_digit n) = true.
Proof.
  intros Hn.
  assert (forallb (fun k => is_hex (Sha256.hex_digit (Z.of_nat k))) (seq 0 16) = true)
    as Hall by (vm_compute; reflexivity).
  rewrite forallb_forall in Hall. specialize (Hall (Z.to_nat n)).
  rewrite Z2Nat.id in Hall by lia. apply Hall. apply in_seq. lia.
Qed.

Lemma byte_val_bounds (c : ascii) : (0 <= Sha256.byte_val c < 256)%Z.
Proof.
  unfold Sha256.byte_val. pose proof (N_ascii_bounded c). lia.
Qed.

Lemma hex_all_hex (bytes : string) : all_hex (Sha256.hex bytes) = true.
Proof.
  induction bytes as [|c r IH]; [done|]. cbn [Sha256.hex all_hex].
  pose proof (byte_val_bounds c) as Hb.
  rewrite !hex_digit_is_hex, IH; [done| |].
  - apply Z.mod_pos_bound. lia.
  - split; [apply Z.div_pos; lia|apply Z.div_lt_upper_bound; lia].
Qed.

(** X21: whatever the digests are, the project checksum is 64 lower-case
    hexadecimal digits: it is never the empty string. *)
Theorem combinedChecksum_is_hex_digest (sums : option (list string)) :
  String.length (combinedChecksum sums) = 64%nat
  /\ all_hex (combinedChecksum sums) = true
  /\ combinedChecksum sums <> "".
Proof.
  split; [apply sha256_hex_length|]. split; [apply hex_all_hex|].
  apply combinedChecksum_nonempty.
Qed.

End ChecksumMore.

Section DownloadMore.
Variable env : Env.

(** X22: [downloadFile] changes the destination file only. When it
    succeeds the destination holds the body of the response. When the file
    cannot be created the disk is as it was. When the request fails after
    the file was created, the destination is left as an empty file,
    whatever it held before; when the copy fails the destination exists. *)
Theorem downloadFile_outcomes (source destination : string) (fs : FileSystem) :
  let run := downloadFile env source destination fs in
  (forall path, path <> destination -> regular run.2 !! path = regular fs !! path)
  /\ directories run.2 = directories fs
  /\ match run.1 with
     | None =>
         exists body, http_Get env source = inr body
                      /\ regular run.2 !! destination = Some body
     | Some err =>
         (createFile_err env destination = Some err /\ run.2 = fs)
         \/ (createFile_err env destination = None
             /\ http_Get env source = inl err
             /\ regular run.2 !! destination = Some "")
         \/ (createFile_err env destination = None
             /\ ioCopy_err env (ToFile destination) = Some err
             /\ is_Some (regular run.2 !! destination))
     end.
Proof.
  cbv zeta. unfold downloadFile.
  destruct (createFile_err env destination) as [e|].
  { cbn [fst snd]. split; [done|]. split; [done|]. left. done. }
  destruct (http_Get env source) as [e|body].
  - cbn [fst snd write_file regular directories].
    split; [intros p Hp; by rewrite lookup_insert_ne|]. split; [done|].
    right. left. by rewrite lookup_insert_eq.
  - destruct (ioCopy_err env (ToFile destination)) as [e|];
      cbn [fst snd write_file regular directories].
    + split; [intros p Hp; by rewrite lookup_insert_ne|]. split; [done|].
      right. right. rewrite lookup_insert_eq. by eauto.
    + split; [intros p Hp; by rewrite !lookup_insert_ne|]. split; [done|].
      exists body. by rewrite lookup_insert_eq.
Qed.

Lemma PrepareFiles_url_dest (m : Zip) (d : string) (fs : FileSystem) :
  url (PrepareFiles env m d fs).1.2 = url m /\ dest (PrepareFiles env m d fs).1.2 = d.
Proof.
  unfold PrepareFiles. cbn [url files checksum].
  destruct (downloadFile env (url m) _ _) as [[e|] fs1]; [done|].
  by destruct (unzip env _ _ fs1) as [[[[filenames checksums] [e|]]|why] fs2].
Qed.


(** X23: [PrepareFiles] keeps the URL and records the destination in
    every case. When it fails the checksum is the one the manager had
    before, and the manifest is the old one or nil; when it panics both
    are the old ones; when it succeeds the checksum is a digest of 64
    characters. *)
Theorem PrepareFiles_state (m : Zip) (d : string) (fs : FileSystem) :
  let run := PrepareFiles env m d fs in
  url run.1.2 = url m
  /\ dest run.1.2 = d
  /\ match run.1.1 with
     | Ret (Some _) =>
         checksum run.1.2 = checksum m
         /\ (files run.1.2 = files m \/ files run.1.2 = None)
     | Ret None =>
         String.length (checksum run.1.2) = 64%nat
         /\ exists sums, checksum run.1.2 = combinedChecksum sums
     | Panic _ =>
         checksum run.1.2 = checksum m /\ files run.1.2 = files m
     end.
Proof.
  cbv zeta. unfold PrepareFiles. cbn [url files checksum].
  destruct (downloadFile env (url m) _ _) as [[e|] fs1].
  { cbn [fst snd url dest files checksum]. by auto. }
  destruct (unzip env _ _ fs1) as [[[[filenames checksums] [e|]]|why] fs2] eqn:Hu;
    cbn [fst snd url dest files checksum].
  - apply unzip_error_nil in Hu as [-> _]. by auto.
  - split; [done|]. split; [done|]. split; [apply sha256_hex_length|by eexists].
  - by auto.
Qed.

End DownloadMore.

Section UnzipMoreWitness.

Lemma unzip_error_returns_nil_witness :
  exists filenames checksums err fs',
    unzip (read_only plugin_archive) "/tmp/a/source.zip" "/tmp/a/unzipped" empty_disk
    = (Ret (filenames, checksums, Some err), fs')
    /\ filenames = None /\ checksums = None.
Proof.
  destruct (unzip (read_only plugin_archive) "/tmp/a/source.zip" "/tmp/a/unzipped"
              empty_disk) as [[[[filenames checksums] err]|why] fs'] eqn:Hrun;
    [|vm_compute in Hrun; discriminate].
  assert (err = Some (errors_New "permission denied")) as ->
    by (vm_compute in Hrun; congruence).
  exists filenames, checksums, (errors_New "permission denied"), fs'.
  split; [reflexivity|].
  exact (unzip_error_returns_nil (read_only plugin_archive) _ _ _ _ _ _ _ Hrun).
Defined.

End UnzipMoreWitness.

Section Escape.
Import Filepath.

Lemma rooted_app (d s : string) : d <> "" -> rooted (d ++ s) = rooted d.
Proof. by destruct d. Qed.

Lemma plain_path_nonempty (d : string) : plain_path d = true -> d <> "".
Proof. intros Hd ->. by vm_compute in Hd. Qed.

Lemma Split_parent (d e x : string) :
  has_byte e "/" = false ->
  Split (d ++ "/" ++ e ++ "/" ++ "../" ++ x) "/"
  = (Split d "/" ++ [e] ++ [".."] ++ Split x "/")%list.
Proof.
  intros He.
  change (d ++ "/" ++ e ++ "/" ++ "../" ++ x)
    with (d ++ String "/" (e ++ String "/" (".." ++ String "/" x))).
  rewrite !Split_app, (Split_no_sep e "/" He). reflexivity.
Qed.

Lemma clean_parent (is_rooted : bool) (start : list string) (e : string)
    (rest kept : list string) :
  forallb normal_elem start = true -> normal_elem e = true ->
  forallb normal_elem rest = true ->
  fold_left (clean_step is_rooted) (start ++ [e] ++ [".."] ++ rest)%list kept
  = (rev rest ++ rev start ++ kept)%list.
Proof.
  intros Hs He Hr. rewrite fold_left_app, (clean_normal _ _ _ Hs).
  cbn [app fold_left].
  assert (clean_step is_rooted (rev start ++ kept)%list e = e :: (rev start ++ kept)%list)
    as ->.
  { unfold clean_step, normal_elem in *.
    destruct (String.eqb e ""); [done|]. destruct (String.eqb e "."); [done|].
    by destruct (String.eqb e ".."). }
  assert (clean_step is_rooted (e :: (rev start ++ kept)%list) ".."
          = (rev start ++ kept)%list) as ->.
  { unfold clean_step at 1. cbn [String.eqb Ascii.eqb Bool.eqb orb].
    unfold normal_elem in He. destruct (String.eqb e ".."); [|done].
    by rewrite !orb_true_r in He. }
  exact (clean_normal _ _ _ Hr).
Qed.

(** X24: an entry whose name, after the root prefix, starts with [../]
    is written beside the destination directory, not below it: [unzip]
    joins the name to the destination and [filepath.Join] resolves the
    [..] against the last element of the destination. *)
Theorem unzip_target_escapes (d e rootPath x : string) (file : File) :
  plain_path d = true ->
  normal_elem e = true -> has_byte e "/" = false ->
  plain_relative x = true ->
  Name file = rootPath ++ "../" ++ x ->
  target (d ++ "/" ++ e) rootPath file = d ++ "/" ++ x.
Proof.
  intros Hd He Hslash Hx Hname. unfold target. rewrite Hname, TrimPrefix_app.
  pose proof (plain_path_nonempty d Hd) as Hne.
  destruct d as [|c r]; [done|]. cbn [Join].
  assert (String.eqb (String c r ++ "/" ++ e) "" = false) as -> by done.
  assert (String.concat "/" [String c r ++ "/" ++ e; "../" ++ x]
          = String c r ++ "/" ++ e ++ "/" ++ "../" ++ x) as ->.
  { cbn [String.concat]. by rewrite !string_app_assoc. }
  unfold Clean. rewrite (rooted_app (String c r) _ Hne), Split_parent by done.
  unfold plain_path, plain_relative in Hd, Hx. cbn [rooted] in *.
  destruct (Ascii.eqb_spec c "/") as [->|Hc].
  - cbn [drop] in Hd. cbn [Split]. rewrite Ascii.eqb_refl.
    change (("" :: Split r "/") ++ [e] ++ [".."] ++ Split x "/")%list
      with ("" :: (Split r "/" ++ [e] ++ [".."] ++ Split x "/"))%list.
    cbn [fold_left]. unfold clean_step at 2. cbn [String.eqb orb].
    rewrite (clean_parent true _ e _ [] Hd He Hx).
    rewrite app_nil_r, rev_app_distr, !rev_involutive.
    rewrite concat_app_nonempty by apply Split_nonempty.
    by rewrite !concat_Split.
  - rewrite (clean_parent false _ e _ [] Hd He Hx).
    rewrite app_nil_r, rev_app_distr, !rev_involutive.
    rewrite concat_app_nonempty by apply Split_nonempty.
    rewrite !concat_Split. reflexivity.
Qed.

Lemma unzip_target_escapes_witness :
  target "/tmp/a/unzipped" "plugin/" (regular_file "plugin/../evil.php" "<?php")
  = "/tmp/a/evil.php".
Proof.
  exact (unzip_target_escapes "/tmp/a" "unzipped" "plugin/" "evil.php"
           (regular_file "plugin/../evil.php" "<?php")
           eq_refl eq_refl eq_refl eq_refl eq_refl).
Defined.

End Escape.

Section IngestMore.
Variable GetKind : string -> string.
Variable ProcessError : Ingest -> string -> error.
Variable env : Env.

Lemma Do_outcome (ig : Ingest) (fs : FileSystem) :
  let run := Do GetKind ProcessError env ig fs in
  Msg run.1.2 = Msg ig
  /\ TempFolder run.1.2 = TempFolder ig
  /\ match run.1.1 with
     | Ret (Some _) | Panic _ => Result run.1.2 = Result ig
     | Ret None =>
         FilesPath run.1.2 = audit_path ig
         /\ exists sum manifest,
              sum <> ""
              /\ Result run.1.2
                 = <["filesPath" := VString (audit_path ig)]>
                     (<["files" := VStrings manifest]>
                        (<["checksum" := VString sum]> (Result ig)))
     end.
Proof.
  cbv zeta. unfold Do.
  set (ig1 := if String.eqb (GetKind (SourceURL (Msg ig))) "zip" then _ else ig).
  assert (Msg ig1 = Msg ig /\ TempFolder ig1 = TempFolder ig /\ Result ig1 = Result ig)
    as (HM & HT & HR) by (subst ig1; by destruct (String.eqb _ "zip")).
  assert (audit_path ig1 = audit_path ig) as HA by (unfold audit_path; by rewrite HM, HT).
  destruct (sourceManager ig1) as [[St impl m]|]; [|by auto].
  destruct (source_PrepareFiles env m _ fs) as [[[[err|]|why] m'] fs']; [by auto| |by auto].
  destruct (String.eqb_spec (source_GetChecksum m') "") as [Hempty|Hsum]; [by auto|].
  cbn [fst snd Msg TempFolder Result FilesPath with_Result with_sourceManager SetFilesPath].
  rewrite HA, HR. split; [done|]. split; [done|]. split; [done|].
  by exists (source_GetChecksum m'), (source_GetFiles m').
Qed.



(** X26: [Do] keeps the message and the temp folder, writes to no key of
    the result but [checksum], [files] and [filesPath], and when it
    returns an error, or panics, it leaves the result as it was. *)
Theorem Do_frame (ig : Ingest) (fs : FileSystem) :
  let run := Do GetKind ProcessError env ig fs in
  Msg run.1.2 = Msg ig
  /\ TempFolder run.1.2 = TempFolder ig
  /\ (forall key, key <> "checksum" -> key <> "files" -> key <> "filesPath" ->
        Result run.1.2 !! key = Result ig !! key)
  /\ (run.1.1 <> Ret None -> Result run.1.2 = Result ig).
Proof.
  pose proof (Do_outcome ig fs) as Hdo. cbv zeta in *.
  destruct (Do GetKind ProcessError env ig fs) as [[[[err|]|why] ig'] fs'];
    cbn [fst snd] in *.
  - destruct Hdo as (HM & HT & ->). by auto.
  - destruct Hdo as (HM & HT & _ & sum & manifest & _ & ->).
    split; [done|]. split; [done|]. split.
    + intros key H1 H2 H3. by rewrite !lookup_insert_ne.
    + intros Hne. by destruct Hne.
  - destruct Hdo as (HM & HT & ->). by auto.
Qed.

(** X27: [Do] sets the source manager for a zip only and never clears it:
    for a URL of another kind a process that handled a zip before runs the
    old manager again, which downloads the old URL into the directory
    named after the new one. *)
Theorem Do_reuses_source_manager (ig : Ingest) (old : Zip) (fs : FileSystem) :
  GetKind (SourceURL (Msg ig)) <> "zip" ->
  sourceManager ig = Some (Manager old) ->
  let run := Do GetKind ProcessError env ig fs in
  let prepared := PrepareFiles env old (audit_path ig) fs in
  sourceManager run.1.2 = Some (Manager prepared.1.2)
  /\ url prepared.1.2 = url old
  /\ dest prepared.1.2 = audit_path ig
  /\ run.2 = prepared.2
  /\ (prepared.1.1 <> Ret None -> run.1.1 = prepared.1.1).
Proof.
  intros Hkind Hold. cbv zeta. unfold Do.
  destruct (String.eqb_spec (GetKind (SourceURL (Msg ig))) "zip") as [E|_]; [done|].
  rewrite Hold.
  cbn [source_PrepareFiles Zip_Source FilesPath SetFilesPath].
  pose proof (PrepareFiles_url_dest env old (audit_path ig) fs) as [Hu Hd].
  destruct (PrepareFiles env old (audit_path ig) fs) as [[[[err|]|why] m'] fs'];
    cbn [fst snd] in *.
  - split; [done|]. split; [done|]. split; [done|]. split; [done|]. done.
  - destruct (String.eqb (source_GetChecksum m') "");
      cbn [fst snd sourceManager with_Result with_sourceManager];
      (split; [done|]); (split; [done|]); (split; [done|]); (split; [done|]);
      intros Hne; by destruct Hne.
  - split; [done|]. split; [done|]. split; [done|]. split; [done|]. done.
Qed.

End IngestMore.

Section AuditPath.
Local Open Scope Z_scope.

Lemma url_char_not_slash (n : Z) : 0 <= n < 64 -> Ascii.eqb (Base64.url_char n) "/" = false.
Proof.
  intros Hn. apply Ascii.eqb_neq. intros E.
  apply (f_equal N_of_ascii) in E. unfold Base64.url_char in E.
  rewrite N_ascii_embedding in E.
  - change (N_of_ascii "/") with 47%N in E.
    destruct (n <? 26) eqn:H1; [lia|]. destruct (n <? 52) eqn:H2; [lia|].
    destruct (n <? 62) eqn:H3; [lia|]. destruct (n =? 62) eqn:H4; lia.
  - destruct (n <? 26) eqn:H1; [lia|]. destruct (n <? 52) eqn:H2; [lia|].
    destruct (n <? 62) eqn:H3; [lia|]. destruct (n =? 62) eqn:H4; lia.
Qed.

Lemma encode_bytes_shape (n : nat) (bytes : list Z) :
  (List.length bytes <= n)%nat ->
  Forall (fun b => 0 <= b < 256) bytes ->
  String.length (Base64.encode_bytes bytes) = (4 * ((List.length bytes + 2) / 3))%nat
  /\ has_byte (Base64.encode_bytes bytes) "/" = false.
Proof.
  revert bytes. induction n as [|n IH]; intros bytes Hlen Hall.
  { destruct bytes; [done|cbn in Hlen; lia]. }
  destruct bytes as [|a [|b [|c rest]]]; [done|..].
  - apply Forall_cons_1 in Hall as [Ha _]. cbn [Base64.encode_bytes has_byte].
    rewrite !url_char_not_slash; [done|..].
    + assert (0 <= a mod 4 < 4) by (apply Z.mod_pos_bound; lia). lia.
    + split; [apply Z.div_pos; lia|apply Z.div_lt_upper_bound; lia].
  - apply Forall_cons_1 in Hall as [Ha Hall]. apply Forall_cons_1 in Hall as [Hb _].
    cbn [Base64.encode_bytes has_byte].
    assert (0 <= a mod 4 < 4) by (apply Z.mod_pos_bound; lia).
    assert (0 <= b mod 16 < 16) by (apply Z.mod_pos_bound; lia).
    assert (0 <= a / 4 < 64)
      by (split; [apply Z.div_pos; lia|apply Z.div_lt_upper_bound; lia]).
    assert (0 <= b / 16 < 16)
      by (split; [apply Z.div_pos; lia|apply Z.div_lt_upper_bound; lia]).
    rewrite !url_char_not_slash by lia. done.
  - apply Forall_cons_1 in Hall as [Ha Hall]. apply Forall_cons_1 in Hall as [Hb Hall].
    apply Forall_cons_1 in Hall as [Hc Hall].
    destruct (IH rest) as [IHl IHs]; [cbn [List.length] in Hlen; lia|exact Hall|].
    cbn [Base64.encode_bytes has_byte String.length List.length].
    assert (0 <= a mod 4 < 4) by (apply Z.mod_pos_bound; lia).
    assert (0 <= b mod 16 < 16) by (apply Z.mod_pos_bound; lia).
    assert (0 <= c mod 64 < 64) by (apply Z.mod_pos_bound; lia).
    assert (0 <= a / 4 < 64)
      by (split; [apply Z.div_pos; lia|apply Z.div_lt_upper_bound; lia]).
    assert (0 <= b / 16 < 16)
      by (split; [apply Z.div_pos; lia|apply Z.div_lt_upper_bound; lia]).
    assert (0 <= c / 64 < 4)
      by (split; [apply Z.div_pos; lia|apply Z.div_lt_upper_bound; lia]).
    rewrite !url_char_not_slash by lia. rewrite IHl, IHs.
    split; [|done].
    replace (S (S (S (List.length rest))) + 2)%nat
      with (List.length rest + 2 + 1 * 3)%nat by lia.
    rewrite Nat.div_add by lia. lia.
Qed.

Lemma bytes_of_string_shape (s : string) :
  List.length (Sha256.bytes_of_string s) = String.length s
  /\ Forall (fun b => 0 <= b < 256) (Sha256.bytes_of_string s).
Proof.
  unfold Sha256.bytes_of_string.
  induction s as [|c r [IHl IHa]]; [by split|].
  cbn [list_ascii_of_string map List.length String.length]. split; [by rewrite IHl|].
  constructor; [apply byte_val_bounds|exact IHa].
Qed.

(** X28: the directory [Do] extracts into is one element below the temp
    folder: [audit-] and 44 characters of the URL alphabet of base64,
    none of them a slash. *)
Theorem audit_path_one_element (ig : Ingest) :
  exists name,
    audit_path ig = (TempFolder ig ++ "/audit-" ++ name)%string
    /\ String.length name = 44%nat
    /\ has_byte ("audit-" ++ name) "/" = false.
Proof.
  exists (Base64.URLEncoding_EncodeToString (Sha256.Sum256 (SourceURL (Msg ig)))).
  split; [done|]. unfold Base64.URLEncoding_EncodeToString.
  destruct (bytes_of_string_shape (Sha256.Sum256 (SourceURL (Msg ig)))) as [Hl Ha].
  rewrite Sum256_length in Hl.
  destruct (encode_bytes_shape 32 _ (Nat.eq_le_incl _ _ Hl) Ha) as [Hlen Hs].
  rewrite Hl in Hlen. split; [exact Hlen|].
  rewrite has_byte_app, Hs. reflexivity.
Qed.

End AuditPath.

Section IngestMoreWitness.

Lemma Do_reuses_source_manager_witness :
  let ig := used_ingest plugin_message in
  let run := Do never_zip text_error (quiet plugin_archive) ig empty_disk in
  let prepared :=
    PrepareFiles (quiet plugin_archive) (NewZip first_url) (audit_path ig) empty_disk in
  sourceManager run.1.2 = Some (Manager prepared.1.2)
  /\ url prepared.1.2 = url (NewZip first_url)
  /\ dest prepared.1.2 = audit_path ig
  /\ run.2 = prepared.2
  /\ (prepared.1.1 <> Ret None -> run.1.1 = prepared.1.1).
Proof.
  refine (Do_reuses_source_manager never_zip text_error (quiet plugin_archive)
            (used_ingest plugin_message) (NewZip first_url) empty_disk _ eq_refl).
  unfold never_zip. discriminate.
Defined.

(** The panic happens: every entry of the archive is of a compression
    method the library cannot read. *)
Example Run_turn_unreadable_archive :
  (Run_turn always_zip text_error (unreadable plugin_archive)
     (fresh_ingest plugin_message) plugin_message empty_disk).1.1
  = Panic nil_dereference.
Proof. vm_compute. reflexivity. Qed.

End IngestMoreWitness.
